(** * Purlovia asset loader: a shallow embedding of [ue/loader.py],
      [ue/objects.py] and [ue/proxy.py], with the properties of the loading,
      caching and proxy layers stated and proved over it. *)

From Stdlib Require Import ZArith Lia List Ascii String Bool.
From stdpp Require Import gmap strings list fin_maps.

Set Default Proof Using "Type".

(** ** Python strings

    A [str] is a sequence of code points; the model keeps the code points
    below 256 (Rocq's [ascii]) and gives the [str] predicates Python's
    values on that range. *)

Definition str := list ascii.

Definition lit (s : string) : str := list_ascii_of_string s.

Module PyStr.

Definition ord (c : ascii) : N := N_of_ascii c.

Definition between (lo hi n : N) : bool := ((lo <=? n) && (n <=? hi))%N.

(** [c.isspace()] *)
Definition isspace (c : ascii) : bool :=
  let n := ord c in
  between 9 13 n || between 28 32 n || (n =? 133)%N || (n =? 160)%N.

(** [c.isnumeric()]: the decimal digits, the superscripts and the vulgar
    fractions of Latin-1. *)
Definition isnumeric_char (c : ascii) : bool :=
  let n := ord c in
  between 48 57 n || (n =? 178)%N || (n =? 179)%N || (n =? 185)%N
  || between 188 190 n.

(** [s.isnumeric()]: every character is numeric and there is at least one. *)
Definition isnumeric (s : str) : bool :=
  match s with
  | [] => false
  | _ => forallb isnumeric_char s
  end.

(** [c.lower()] *)
Definition lower_char (c : ascii) : ascii :=
  let n := ord c in
  if between 65 90 n || (between 192 222 n && negb (n =? 215)%N)
  then ascii_of_N (n + 32) else c.

Definition lower (s : str) : str := map lower_char s.

Definition eqb (a b : str) : bool := bool_decide (a = b).

(** [sub in s] for a one-character [sub] *)
Definition contains (d : ascii) (s : str) : bool :=
  existsb (fun c => bool_decide (c = d)) s.

(** [s[:s.index(d)]], for [d] in [s] (the whole of [s] otherwise) *)
Fixpoint before (d : ascii) (s : str) : str :=
  match s with
  | [] => []
  | c :: s' => if bool_decide (c = d) then [] else c :: before d s'
  end.

Fixpoint lstrip (p : ascii -> bool) (s : str) : str :=
  match s with
  | [] => []
  | c :: s' => if p c then lstrip p s' else s
  end.

Definition rstrip (p : ascii -> bool) (s : str) : str :=
  rev (lstrip p (rev s)).

(** [s.strip()] is [strip isspace s]; [s.strip('/')] is [strip (is_char "/") s]. *)
Definition strip (p : ascii -> bool) (s : str) : str := rstrip p (lstrip p s).

Definition is_char (d c : ascii) : bool := bool_decide (c = d).

(** [s.replace(a, b)] for one-character [a] and [b] *)
Definition replace (a b : ascii) (s : str) : str :=
  map (fun c => if bool_decide (c = a) then b else c) s.

(** [s.split(d)] for a one-character separator: never empty. *)
Fixpoint split (d : ascii) (s : str) : list str :=
  match s with
  | [] => [[]]
  | c :: s' =>
      if bool_decide (c = d) then [] :: split d s'
      else match split d s' with
           | p :: ps => (c :: p) :: ps
           | [] => [[c]]
           end
  end.

(** [d.join(ps)] for a one-character [d] *)
Fixpoint join (d : ascii) (ps : list str) : str :=
  match ps with
  | [] => []
  | [p] => p
  | p :: ps' => p ++ d :: join d ps'
  end.

(** [s.startswith(p)] *)
Fixpoint startswith (p s : str) : bool :=
  match p, s with
  | [], _ => true
  | _ :: _, [] => false
  | a :: p', c :: s' => bool_decide (a = c) && startswith p' s'
  end.

End PyStr.

(** ** Exceptions and the state-and-exception monad

    Everything the loader raises derives from [Exception]; what a Python
    statement has already written to an object stays written when a later
    statement raises, so a computation returns its outcome together with the
    state it leaves. *)

Inductive exn : Type :=
| ModNotFound (mod_name : str)
| AssetNotFound (asset_name : str)
| ExportNotFound (asset_name export_name : str)
| AssetParseError (asset_name : str) (cause : exn)
| AssertionError
| KeyError
| ValueError
| OtherException (what : string).

Inductive result (A : Type) : Type :=
| Ok (a : A)
| Raise (e : exn).
Arguments Ok {A} a.
Arguments Raise {A} e.

Definition M (St A : Type) : Type := St -> result A * St.

Definition ret {St A} (a : A) : M St A := fun s => (Ok a, s).

Definition raise {St A} (e : exn) : M St A := fun s => (Raise e, s).

Definition bind {St A B} (m : M St A) (k : A -> M St B) : M St B :=
  fun s => match m s with
           | (Ok a, s') => k a s'
           | (Raise e, s') => (Raise e, s')
           end.

Definition get {St} : M St St := fun s => (Ok s, s).

Definition modify {St} (f : St -> St) : M St unit := fun s => (Ok tt, f s).

Definition lift {St A} (r : result A) : M St A := fun s => (r, s).

(** [try: body / except Exception as ex: handler(ex)] *)
Definition try_except {St A} (body : M St A) (handler : exn -> M St A) : M St A :=
  fun s => match body s with
           | (Ok a, s') => (Ok a, s')
           | (Raise e, s') => handler e s'
           end.

(** [try: body / finally: fin]: [fin] runs on every exit of [body]; the
    outcome of [body] stands unless [fin] itself raises. *)
Definition try_finally {St A} (body : M St A) (fin : M St unit) : M St A :=
  fun s => match body s with
           | (r, s') => match fin s' with
                        | (Ok _, s'') => (r, s'')
                        | (Raise e, s'') => (Raise e, s'')
                        end
           end.

Declare Scope py_scope.
Delimit Scope py_scope with py.
Notation "x <- m ;; k" := (bind m (fun x => k))
  (at level 100, m at next level, right associativity) : py_scope.
Notation "m ;;; k" := (bind m (fun _ => k))
  (at level 100, right associativity) : py_scope.
Open Scope py_scope.

(** [for x in xs: body(x)] *)
Fixpoint for_each {St A} (xs : list A) (body : A -> M St unit) : M St unit :=
  match xs with
  | [] => ret tt
  | x :: xs' => body x ;;; for_each xs' body
  end.

(** ** Insertion-ordered dictionaries

    The usage-ordered cache relies on the order of a Python [dict]: an
    association list in insertion order, keys unique. *)

Section PyDict.
Context {K V : Type} `{EqDecision K}.

Definition pydict : Type := list (K * V).

Definition keys (d : pydict) : list K := map fst d.

Fixpoint dict_get (k : K) (d : pydict) : option V :=
  match d with
  | [] => None
  | (k', v) :: d' => if decide (k' = k) then Some v else dict_get k d'
  end.

(** the dictionary without its entry for [k] *)
Fixpoint dict_remove (k : K) (d : pydict) : pydict :=
  match d with
  | [] => []
  | (k', v) :: d' => if decide (k' = k) then d' else (k', v) :: dict_remove k d'
  end.

(** [d.pop(k, None)] *)
Definition dict_pop (k : K) (d : pydict) : option V * pydict :=
  (dict_get k d, dict_remove k d).

(** [d[k] = v]: in place for a key already there, at the end otherwise. *)
Fixpoint dict_set (k : K) (v : V) (d : pydict) : pydict :=
  match d with
  | [] => [(k, v)]
  | (k', v') :: d' =>
      if decide (k' = k) then (k', v) :: d' else (k', v') :: dict_set k v d'
  end.

(** [del d[k]] *)
Definition dict_del (k : K) (d : pydict) : result pydict :=
  match dict_get k d with
  | Some _ => Ok (dict_remove k d)
  | None => Raise KeyError
  end.

Definition wf_dict (d : pydict) : Prop := NoDup (keys d).

End PyDict.
Arguments pydict : clear implicits.

(** ** Containers and their exports *)

Module ExportTableItem.
(** [name] and [namespace] hold what [str(export.name)] and
    [str(export.namespace)] give; [klass_value] is [export.klass.value]. *)
Record t : Type := mk {
  name : str;
  namespace : str;
  klass_value : str;
}.
End ExportTableItem.

(** Modelled from the spec: the parse context of [ue/context.py], which is
    not among the sources. A container records whether it was parsed fully
    or only partially (deserialised, not linked); an operation requires one
    or the other. *)
Inductive ParsingContext : Type := FullParse | PartialParse.

Module UAsset.
Record t : Type := mk {
  assetname : str;
  name : str;
  file_ext : str;
  exports : list ExportTableItem.t;
  default_export : option ExportTableItem.t;
  default_class : option str;
  context : ParsingContext;
}.

Definition set_default_export (v : option ExportTableItem.t) (a : t) : t :=
  mk (assetname a) (name a) (file_ext a) (exports a) v (default_class a) (context a).

Definition set_default_class (v : option str) (a : t) : t :=
  mk (assetname a) (name a) (file_ext a) (exports a) (default_export a) v (context a).

Definition set_provenance (an n ext : str) (a : t) : t :=
  mk an n ext (exports a) (default_export a) (default_class a) (context a).

(** Modelled from the spec: [UAsset.is_context_satisfied] of [ue/asset.py],
    which is not among the sources. A partially parsed container does not
    satisfy an operation that requires a full parse; every other
    combination is satisfied. *)
Definition is_context_satisfied (a : t) (required : ParsingContext) : bool :=
  match required, context a with
  | FullParse, PartialParse => false
  | _, _ => true
  end.
End UAsset.

(** ** The process state the loader works on *)

Inductive LogLevel : Type := DEBUG | INFO | WARNING.

Record LogRecord : Type := mkLog {
  level : LogLevel;
  msg : string;
  arg : str;
}.

Record CacheState : Type := mkCache {
  cache : pydict str UAsset.t;
  max_count : Z;
  max_memory : Z;
  keep_count : Z;
  highest_memory_seen : Z;
}.

Record World : Type := mkWorld {
  manager : CacheState;        (* the loader's [UsageBasedCacheManager] *)
  logged : list LogRecord;     (* what [logger] has emitted, oldest first *)
  rss : Z;                     (* [psutil.Process().memory_info().rss] *)
  ctx : ParsingContext;        (* what [get_ctx()] returns *)
  release_calls : nat;         (* calls of [mem.release()] made so far *)
}.

Definition set_cache (c : pydict str UAsset.t) (w : World) : World :=
  let m := manager w in
  mkWorld (mkCache c (max_count m) (max_memory m) (keep_count m) (highest_memory_seen m))
          (logged w) (rss w) (ctx w) (release_calls w).

Definition set_highest_memory_seen (h : Z) (w : World) : World :=
  let m := manager w in
  mkWorld (mkCache (cache m) (max_count m) (max_memory m) (keep_count m) h)
          (logged w) (rss w) (ctx w) (release_calls w).

Definition add_log (r : LogRecord) (w : World) : World :=
  mkWorld (manager w) (logged w ++ [r]) (rss w) (ctx w) (release_calls w).

Definition set_rss (v : Z) (w : World) : World :=
  mkWorld (manager w) (logged w) v (ctx w) (release_calls w).

Definition count_release (w : World) : World :=
  mkWorld (manager w) (logged w) (rss w) (ctx w) (S (release_calls w)).

Definition log (l : LogLevel) (m : string) (a : str) : M World unit :=
  modify (add_log (mkLog l m a)).

(** ** Cache managers *)

Module UsageBasedCacheManager.

Definition __init__ (max_count max_memory keep_count : Z) : CacheState :=
  mkCache [] max_count max_memory keep_count 0.

Definition default : CacheState :=
  __init__ 3000 (6 * 1024 * 1024 * 1024) 500.

Definition lookup (name : str) : M World (option UAsset.t) :=
  w <- get ;;
  let (result, c) := dict_pop name (cache (manager w)) in
  match result with
  | Some asset => modify (set_cache (dict_set name asset c)) ;;; ret (Some asset)
  | None => modify (set_cache c) ;;; ret None
  end.

(** [list(islice(self.cache, amount))], then [del] of each name *)
Definition _purge (amount : Z) : M World unit :=
  w <- get ;;
  if (amount <? 0)%Z then raise ValueError
  else
    let to_cull := firstn (Z.to_nat amount) (keys (cache (manager w))) in
    for_each to_cull (fun name =>
      w <- get ;;
      c <- lift (dict_del name (cache (manager w))) ;;
      modify (set_cache c)).

Definition _maybe_purge : M World unit :=
  w <- get ;;
  let mem_used := rss w in
  (if (highest_memory_seen (manager w) <? mem_used)%Z
   then modify (set_highest_memory_seen mem_used) else ret tt) ;;;
  w <- get ;;
  let cache_count := Z.of_nat (length (cache (manager w))) in
  if (max_count (manager w) <=? cache_count)%Z then
    log DEBUG "Asset cache purge due to too many items" [] ;;;
    _purge (cache_count - keep_count (manager w))
  else ret tt.

Definition add (name : str) (asset : UAsset.t) : M World unit :=
  modify (fun w => set_cache (snd (dict_pop name (cache (manager w)))) w) ;;;
  modify (fun w => set_cache (dict_set name asset (cache (manager w))) w) ;;;
  _maybe_purge.

Definition remove (name : str) : M World unit :=
  log DEBUG "Removing cache entry: %s" name ;;;
  w <- get ;;
  let (found, c) := dict_pop name (cache (manager w)) in
  modify (set_cache c) ;;;
  match found with
  | Some _ => ret tt
  | None => log WARNING "Attempt to remove asset that was not found: %s" name
  end.

Definition wipe (prefix : str) : M World unit :=
  match prefix with
  | [] =>
      log DEBUG "Wiping cache completely" [] ;;;
      modify (set_cache [])
  | _ =>
      log DEBUG "Wiping cache with prefix: %s" prefix ;;;
      w <- get ;;
      let to_cull := filter (fun key => PyStr.startswith prefix key = true)
                            (keys (cache (manager w))) in
      for_each to_cull (fun name =>
        w <- get ;;
        c <- lift (dict_del name (cache (manager w))) ;;
        modify (set_cache c))
  end.

Definition get_count : M World Z :=
  w <- get ;; ret (Z.of_nat (length (cache (manager w)))).

End UsageBasedCacheManager.

Module ContextAwareCacheWrapper.

Definition lookup (name : str) : M World (option UAsset.t) :=
  w <- get ;;
  let current_ctx := ctx w in
  found <- UsageBasedCacheManager.lookup name ;;
  match found with
  | None => ret None
  | Some asset =>
      if negb (UAsset.is_context_satisfied asset current_ctx) then
        log DEBUG "Re-parsing asset for more data: %s" name ;;; ret None
      else ret (Some asset)
  end.

Definition add (name : str) (asset : UAsset.t) : M World unit :=
  UsageBasedCacheManager.add name asset.

Definition remove (name : str) : M World unit :=
  UsageBasedCacheManager.remove name.

Definition wipe (prefix : str) : M World unit :=
  UsageBasedCacheManager.wipe prefix.

Definition get_count : M World Z := UsageBasedCacheManager.get_count.

End ContextAwareCacheWrapper.

(** The plain manager: [self.cache] alone is its state. *)
Module DictCacheManager.

Definition lookup (name : str) : M (pydict str UAsset.t) (option UAsset.t) :=
  c <- get ;; ret (dict_get name c).

Definition add (name : str) (asset : UAsset.t) : M (pydict str UAsset.t) unit :=
  modify (dict_set name asset).

(** [del self.cache[name]] *)
Definition remove (name : str) : M (pydict str UAsset.t) unit :=
  c <- get ;;
  c' <- lift (dict_del name c) ;;
  modify (fun _ => c').

Definition wipe (prefix : str) : M (pydict str UAsset.t) unit :=
  match prefix with
  | [] => modify (fun _ => [])
  | _ =>
      c <- get ;;
      for_each (List.filter (PyStr.startswith prefix) (keys c)) remove
  end.

Definition get_count : M (pydict str UAsset.t) Z :=
  c <- get ;; ret (Z.of_nat (length c)).

End DictCacheManager.

(** ** Mod resolvers *)

Class ModResolver : Type := {
  get_name_from_id : str -> option str;
  get_id_from_name : str -> option str;
}.

(** [IniModResolver] after [initialise], given the [(id, name)] pairs of the
    [ids] section of [mods.ini] in file order. *)
Definition mods_id_to_names (ids : list (str * str)) : pydict str str :=
  fold_left (fun d p => dict_set (fst p) (snd p) d) ids [].

Definition mods_names_to_ids (ids : list (str * str)) : pydict str str :=
  fold_left (fun d p => dict_set (PyStr.lower (snd p)) (fst p) d) ids [].

Definition IniModResolver (ids : list (str * str)) : ModResolver := {|
  get_name_from_id modid := dict_get modid (mods_id_to_names ids);
  get_id_from_name name := dict_get (PyStr.lower name) (mods_names_to_ids ids);
|}.

(** ** The asset loader *)

Definition memoryview : Type := list Byte.byte.

Definition slash : ascii := "/"%char.
Definition backslash : ascii := "\"%char.
Definition dot : ascii := "."%char.

Module AssetLoader.

Section Naming.
Context {modresolver : ModResolver}.

(** the [parts[2] = mod_name] step of [clean_asset_name] *)
Definition mod_ids_to_names (parts : list str) : result (list str) :=
  match parts with
  | p0 :: p1 :: p2 :: rest =>
      if PyStr.eqb (PyStr.lower p1) (lit "mods") && PyStr.isnumeric p2 then
        match get_name_from_id p2 with
        | Some (c :: n) => Ok (p0 :: p1 :: (c :: n) :: rest)
        | _ => Raise (ModNotFound p2)
        end
      else Ok parts
  | _ => Ok parts
  end.

(** the [parts[0] = 'Game'] step of [clean_asset_name] *)
Definition content_to_game (parts : list str) : list str :=
  match parts with
  | p0 :: rest =>
      if PyStr.eqb (PyStr.lower p0) (lit "content") then lit "Game" :: rest
      else parts
  | [] => []
  end.

(** [name.strip().strip('/').strip('\\').replace('\\', '/')] *)
Definition trimmed (name : str) : str :=
  PyStr.replace backslash slash
    (PyStr.strip (PyStr.is_char backslash)
       (PyStr.strip (PyStr.is_char slash)
          (PyStr.strip PyStr.isspace name))).

Definition clean_asset_name (name : str) : result str :=
  let name := if PyStr.contains dot name then PyStr.before dot name else name in
  let name := trimmed name in
  let parts := PyStr.split slash name in
  match mod_ids_to_names parts with
  | Raise e => Raise e
  | Ok parts =>
      let parts := content_to_game parts in
      Ok (slash :: PyStr.join slash parts)
  end.


End Naming.

(** The default-export selection at the end of [_load_asset]. *)
Definition select_default_export (assetname : str) (asset : UAsset.t)
  : M World UAsset.t :=
  let leafname := List.last (PyStr.split slash assetname) [] in
  let top_exports :=
    List.filter (fun export => PyStr.eqb (ExportTableItem.namespace export) (lit "None"))
                (UAsset.exports asset) in
  let exports :=
    List.filter (fun export => PyStr.startswith (lit "Default__") (ExportTableItem.name export))
                top_exports in
  (if (1 <? length exports)%nat
   then log WARNING "Found more than one Default__ entry in %s!" assetname
   else ret tt) ;;;
  let asset := UAsset.set_default_export (head exports) asset in
  let asset :=
    match UAsset.default_export asset with
    | Some export => UAsset.set_default_class (Some (ExportTableItem.klass_value export)) asset
    | None => asset
    end in
  match UAsset.default_export asset with
  | Some _ => ret asset
  | None =>
      let exports :=
        List.filter (fun export =>
                       PyStr.eqb (PyStr.lower (ExportTableItem.name export))
                                 (PyStr.lower leafname))
                    top_exports in
      if (1 <? length exports)%nat then
        log WARNING "Found more than <assetname> export in %s!" assetname ;;;
        ret asset
      else ret (UAsset.set_default_export (head exports) asset)
  end.

Section Loading.
(** What [_load_asset] calls outside this module: [load_raw_asset] reads the
    file for a name (it consults the file system only and never the asset
    cache); [UAsset_new] is [UAsset(MemoryStream(mem, 0, len(mem)))];
    [deserialise] and [link] are the two parse phases of [ue/asset.py],
    working on the container alone. *)
Variable load_raw_asset : str -> result (memoryview * str).
Variable UAsset_new : memoryview -> result UAsset.t.
Variable deserialise : UAsset.t -> result UAsset.t.
Variable link : UAsset.t -> result UAsset.t.

(** the body of the outer [try]: [inl] is the early [return asset] of a
    partial load, [inr] falls through to the code after [finally] *)
Definition parse (assetname ext : str) (mem : memoryview) (doNotLink : bool)
  : M World (UAsset.t + UAsset.t) :=
  asset <- lift (UAsset_new mem) ;;
  let asset :=
    UAsset.set_provenance assetname (List.last (PyStr.split slash assetname) []) ext asset in
  try_except
    (asset <- lift (deserialise asset) ;;
     if doNotLink then ret (inl asset)
     else asset <- lift (link asset) ;; ret (inr asset))
    (fun ex => raise (AssetParseError assetname ex)).

Definition _load_asset (assetname : str) (doNotLink quiet cache_result : bool)
  : M World UAsset.t :=
  (if negb quiet then log DEBUG "Loading asset: %s" assetname else ret tt) ;;;
  raw <- lift (load_raw_asset assetname) ;;
  let (mem, ext) := raw : memoryview * str in
  parsed <- try_finally (parse assetname ext mem doNotLink) (modify count_release) ;;
  match parsed with
  | inl asset => ret asset
  | inr asset =>
      asset <- select_default_export assetname asset ;;
      (if cache_result then ContextAwareCacheWrapper.add assetname asset else ret tt) ;;;
      ret asset
  end.

Definition partially_load_asset (assetname : str) (cache_result : bool)
  : M World UAsset.t :=
  _load_asset assetname true false cache_result.

End Loading.

(** *** Loading through the cache *)

(** [self.max_memory] and [self.max_cache] of the loader *)
Module Stats.
Record t : Type := mk {
  max_memory : Z;
  max_cache : Z;
}.
End Stats.

(** a computation on the process state, run by the loader *)
Definition on_world {A} (m : M World A) : M (World * Stats.t) A :=
  fun s => match m (fst s) with
           | (r, w') => (r, (w', snd s))
           end.

Section Cached.
Context {modresolver : ModResolver}.
Variable load_raw_asset : str -> result (memoryview * str).
Variable UAsset_new : memoryview -> result UAsset.t.
Variable deserialise : UAsset.t -> result UAsset.t.
Variable link : UAsset.t -> result UAsset.t.

(** the statistics kept at the end of [load_asset] *)
Definition keep_stats : M (World * Stats.t) unit :=
  s <- get ;;
  let mem_used := rss (fst s) in
  (if (Stats.max_memory (snd s) <? mem_used)%Z
   then modify (fun s => (fst s, Stats.mk mem_used (Stats.max_cache (snd s))))
   else ret tt) ;;;
  cache_used <- on_world ContextAwareCacheWrapper.get_count ;;
  s <- get ;;
  if (Stats.max_cache (snd s) <? cache_used)%Z
  then modify (fun s => (fst s, Stats.mk (Stats.max_memory (snd s)) cache_used))
  else ret tt.

(** [(use_cache and self.cache.lookup(assetname)) or self._load_asset(...)],
    then the statistics *)
Definition load_asset (assetname : str) (quiet use_cache cache_result : bool)
  : M (World * Stats.t) UAsset.t :=
  assetname <- lift (clean_asset_name assetname) ;;
  cached <- (if use_cache then on_world (ContextAwareCacheWrapper.lookup assetname)
             else ret None) ;;
  asset <- match cached with
           | Some asset => ret asset
           | None =>
               on_world (_load_asset load_raw_asset UAsset_new deserialise link
                           assetname false quiet cache_result)
           end ;;
  keep_stats ;;;
  ret asset.

Definition __getitem__ (assetname : str) : M (World * Stats.t) UAsset.t :=
  load_asset assetname false true true.

(** [fallback] is [None] for [NO_FALLBACK]; the result is the export found,
    or the fallback. *)
Definition load_class {R : Type} (fullname : str) (fallback : option R) (quiet : bool)
  : M (World * Stats.t) (ExportTableItem.t + R) :=
  match PyStr.split dot fullname with
  | [assetname; cls_name] =>
      assetname <- lift (clean_asset_name assetname) ;;
      asset <- load_asset assetname quiet true true ;;
      match List.find (fun export => PyStr.eqb (ExportTableItem.name export) cls_name)
                      (UAsset.exports asset) with
      | Some export => ret (inl export)
      | None =>
          match fallback with
          | Some value => ret (inr value)
          | None => raise (ExportNotFound assetname cls_name)
          end
      end
  | _ => raise ValueError
  end.

Definition wipe_cache : M World unit := ContextAwareCacheWrapper.wipe [].

Definition wipe_cache_with_prefix (prefix : str) : M World unit :=
  ContextAwareCacheWrapper.wipe prefix.

End Cached.

(** *** Mods of an asset name *)

Section Mods.
Context {modresolver : ModResolver}.
(** [self.alias_to_mods] *)
Variable alias_to_mods : pydict str str.




End Mods.

End AssetLoader.

(** ** Case-insensitive path matching and its memo *)

Module PathMatch.

(** A [Path] by its parts. *)
Definition Path : Type := list str.

Definition parent (p : Path) : Path := removelast p.
Definition name (p : Path) : str := List.last p [].

(** The file system as the calls of [pathlib] see it. *)
Record FileSystem : Type := {
  exists_ : Path -> bool;
  iterdir : Path -> result (list Path);
}.

Record MemoState : Type := mkMemo {
  path_match_cache : gmap Path (option Path);
  scanned : list Path;        (* directories iterated so far, oldest first *)
  searches : list Path;       (* the "Uncached case-insensitive search" log *)
}.

Definition remember (path : Path) (v : option Path) (s : MemoState) : MemoState :=
  mkMemo (<[path := v]> (path_match_cache s)) (scanned s) (searches s).

Definition note_scan (dir : Path) (s : MemoState) : MemoState :=
  mkMemo (path_match_cache s) (scanned s ++ [dir]) (searches s).

Definition note_search (path : Path) (s : MemoState) : MemoState :=
  mkMemo (path_match_cache s) (scanned s) (searches s ++ [path]).

(** the [for found in parent.iterdir()] loop: the first entry whose name
    matches *)
Definition first_match (name : str) (entries : list Path) : option Path :=
  List.find (fun found => PyStr.eqb (PyStr.lower (PathMatch.name found)) name) entries.

Definition find_caseinsensitive_path_match (fs : FileSystem) (path : Path)
  : M MemoState (option Path) :=
  s <- get ;;
  match path_match_cache s !! path with
  | Some cached => ret cached
  | None =>
      modify (note_search path) ;;;
      if exists_ fs path then
        modify (remember path (Some path)) ;;; ret (Some path)
      else
        let parent := parent path in
        let name := PyStr.lower (name path) in
        modify (note_scan parent) ;;;
        entries <- lift (iterdir fs parent) ;;
        match first_match name entries with
        | Some found => modify (remember path (Some found)) ;;; ret (Some found)
        | None => ret None
        end
  end.

(** A file system given by the list of the paths that exist. *)
Definition listed (files : list Path) : FileSystem := {|
  exists_ p := bool_decide (p ∈ files);
  iterdir dir :=
    if bool_decide (dir ∈ files)
    then Ok (List.filter (fun p => bool_decide (p ≠ [] ∧ parent p = dir)) files)
    else Raise (OtherException "FileNotFoundError");
|}.

(** [find_caseinsensitive_path]; [joinpath current part] is
    [current / part]. *)
Section Walk.
Variable joinpath : Path -> str -> Path.
Variable fs : FileSystem.

(** the loop, from a [current] that is a path or [None] *)
Fixpoint walk (parts : list str) (current : option Path) : M MemoState (option Path) :=
  match parts with
  | [] => ret current
  | part :: parts' =>
      match current with
      | None => ret None
      | Some current =>
          current <- find_caseinsensitive_path_match fs (joinpath current part) ;;
          walk parts' current
      end
  end.

Definition find_caseinsensitive_path (base : Path) (parts : list str)
  : M MemoState (option Path) :=
  match parts with
  | [] => ret (Some base)
  | _ => walk parts (Some base)
  end.

End Walk.

End PathMatch.

(** ** From asset names to files *)

Module AssetPaths.
Import PathMatch.

Section Paths.
Context {modresolver : ModResolver}.
(** [self.asset_path], [self.rewrites_to_path] in dict order, and what the
    loader asks of [pathlib] and of the disk: [joinpath current part] is
    [current / part] (so that [Path(base, *parts)] is the fold of it),
    [read_file] is [load_file_into_memory] on a file that is there. *)
Variable asset_path : Path.
Variable rewrites_to_path : pydict str str.
Variable joinpath : Path -> str -> Path.
Variable fs : FileSystem.
Variable is_dir : Path -> bool.
Variable is_file : Path -> bool.
Variable read_file : Path -> memoryview.

(** the loop over the rewrites: the first prefix that matches is replaced *)
Fixpoint rewrite_prefix (rewrites : pydict str str) (name : str) : str :=
  match rewrites with
  | [] => name
  | (prefix_from, prefix_to) :: rewrites' =>
      if PyStr.startswith prefix_from name
      then prefix_to ++ skipn (length prefix_from) name
      else rewrite_prefix rewrites' name
  end.

(** the [parts[2] = modid] step *)
Definition mod_names_to_ids (parts : list str) : result (list str) :=
  match parts with
  | p0 :: p1 :: p2 :: rest =>
      if PyStr.eqb (PyStr.lower p1) (lit "mods") && negb (PyStr.isnumeric p2) then
        match get_id_from_name p2 with
        | Some (c :: i) => Ok (p0 :: p1 :: (c :: i) :: rest)
        | _ => Raise (ModNotFound p2)
        end
      else Ok parts
  | _ => Ok parts
  end.

(** the [parts[0] = 'Content'] step *)
Definition game_to_content (parts : list str) : list str :=
  match parts with
  | p0 :: rest =>
      if PyStr.eqb (PyStr.lower p0) (lit "game") then lit "Content" :: rest
      else parts
  | [] => []
  end.

(** [parts[-1] += ext] *)
Fixpoint add_ext (ext : str) (parts : list str) : list str :=
  match parts with
  | [] => []
  | [p] => [p ++ ext]
  | p :: parts' => p :: add_ext ext parts'
  end.

(** the parts handed to [Path(self.asset_path, *parts)] *)
Definition file_parts (name : str) (partial : bool) (ext : str) : result (list str) :=
  match AssetLoader.clean_asset_name name with
  | Raise e => Raise e
  | Ok name =>
      let name := rewrite_prefix rewrites_to_path name in
      let parts := PyStr.split slash (PyStr.strip (PyStr.is_char slash) name) in
      match mod_names_to_ids parts with
      | Raise e => Raise e
      | Ok parts =>
          let parts := game_to_content parts in
          Ok (if partial then parts else add_ext ext parts)
      end
  end.

Definition convert_asset_name_to_path
    (name : str) (partial : bool) (ext : str) (check_exists : bool)
  : M MemoState (option Path) :=
  parts <- lift (file_parts name partial ext) ;;
  let fullpath := fold_left joinpath parts asset_path in
  if negb check_exists then ret (Some fullpath)
  else if partial && is_dir fullpath then ret (Some fullpath)
  else if negb partial && is_file fullpath then ret (Some fullpath)
  else find_caseinsensitive_path joinpath fs asset_path parts.

(** one turn of [for ext in ('.uasset', '.umap')]: [Some] is the
    [return (mem, ext)] *)
Definition try_ext (name ext : str) : M MemoState (option (memoryview * str)) :=
  path <- convert_asset_name_to_path name false ext true ;;
  match path with
  | Some path => if is_file path then ret (Some (read_file path, ext)) else ret None
  | None => ret None
  end.

Definition load_raw_asset (name : str) : M MemoState (memoryview * str) :=
  name <- lift (AssetLoader.clean_asset_name name) ;;
  found <- try_ext name (lit ".uasset") ;;
  match found with
  | Some r => ret r
  | None =>
      found <- try_ext name (lit ".umap") ;;
      match found with
      | Some r => ret r
      | None => raise (AssetNotFound name)
      end
  end.

End Paths.

End AssetPaths.

(** ** The instanced-geometry blob parser of [ue/objects.py] *)

Module InstancedStaticMeshComponentObject.

Record MemoryStream : Type := mkStream {
  mem : memoryview;
  offset : Z;
}.

(** The reads the parser makes on [self.stream], and [StripDataFlags];
    [ue/stream.py] and [ue/coretypes.py] are not among the sources, so the
    parser is written over their interface. *)
Class StreamOps (F SDF : Type) : Type := {
  readUInt32 : M MemoryStream Z;
  readBool8 : M MemoryStream bool;
  readFloat : M MemoryStream F;
  StripDataFlags_deserialise : M MemoryStream SDF;
  is_stripped_for_server : SDF -> bool;
  is_stripped_for_editor : SDF -> bool;
  is_stripped_for_custom : Z -> SDF -> bool;
}.

Section Parser.
Context {F SDF : Type} `{StreamOps F SDF}.

(** The object being deserialised: its stream, and the field
    [visible_instances] once [_newField] has produced it. *)
Record Obj : Type := mkObj {
  stream : MemoryStream;
  visible_instances : option (list (F * F * F));
}.

Definition on_stream {A} (m : M MemoryStream A) : M Obj A :=
  fun o => match m (stream o) with
           | (r, s') => (r, mkObj s' (visible_instances o))
           end.

(** [self.stream.offset += n] *)
Definition skip (n : Z) : M Obj unit :=
  modify (fun o => mkObj (mkStream (mem (stream o)) (offset (stream o) + n))
                         (visible_instances o)).

Definition _newField (instances : list (F * F * F)) : M Obj unit :=
  modify (fun o => mkObj (stream o) (Some instances)).

(** [for _ in range(n): body] *)
Fixpoint times (n : nat) (body : M Obj unit) : M Obj unit :=
  match n with
  | O => ret tt
  | S n' => body ;;; times n' body
  end.

Definition color_section : M Obj unit :=
  has_color_data <- on_stream readBool8 ;;
  if has_color_data : bool then
    color_strip <- on_stream StripDataFlags_deserialise ;;
    skip 4 ;;;
    color_num <- on_stream readUInt32 ;;
    if (0 <? color_num)%Z && negb (is_stripped_for_server color_strip) then
      skip (4 * color_num) ;;; skip 8
    else ret tt
  else ret tt.

Definition lod_section : M Obj unit :=
  strip_flags <- on_stream StripDataFlags_deserialise ;;
  (if negb (is_stripped_for_server strip_flags) then skip 8 else ret tt) ;;;
  (if negb (is_stripped_for_custom 1 strip_flags) then color_section else ret tt) ;;;
  (if negb (is_stripped_for_editor strip_flags) then
     paint_count <- on_stream readUInt32 ;;
     times (Z.to_nat paint_count) (skip (3 * 4 + 4 * 4 + 1))
   else ret tt).

(** everything before the stored struct size *)
Definition lod_sections : M Obj unit :=
  lod_count <- on_stream readUInt32 ;;
  times (Z.to_nat lod_count) lod_section.

Definition read_instance : M Obj (F * F * F) :=
  skip (4 * 3 * 4) ;;;
  x <- on_stream readFloat ;;
  y <- on_stream readFloat ;;
  z <- on_stream readFloat ;;
  skip 4 ;;;
  skip 16 ;;;
  ret (x, y, z).

(** [for index in range(n): ... instances.append((x, y, z))] *)
Fixpoint read_instances (n : nat) (instances : list (F * F * F))
  : M Obj (list (F * F * F)) :=
  match n with
  | O => ret instances
  | S n' =>
      i <- read_instance ;;
      read_instances n' (instances ++ [i])
  end.

(** [assert self.stream.readUInt32() == 80] is run as written, assertions
    enabled: it reads the stored size and raises [AssertionError] on any
    other value. *)
Definition _deserialise : M Obj unit :=
  lod_sections ;;;
  struct_size <- on_stream readUInt32 ;;
  (if (struct_size =? 80)%Z then ret tt else raise AssertionError) ;;;
  num_instances <- on_stream readUInt32 ;;
  instances <- read_instances (Z.to_nat num_instances) [] ;;
  _newField instances.

End Parser.

(** A little-endian byte reader over the buffer, to run the parser on
    concrete bytes: a float is kept as its 32-bit pattern, and the strip
    flags are the two bytes (global, class) that Unreal writes. *)
Definition byte_at (s : MemoryStream) (i : Z) : option Z :=
  if (i <? 0)%Z then None
  else option_map (fun b => Z.of_N (Byte.to_N b)) (nth_error (mem s) (Z.to_nat i)).

Definition read_le (n : nat) : M MemoryStream Z :=
  fun s =>
    let fix go (k : nat) (i : Z) : option Z :=
      match k with
      | O => Some 0%Z
      | S k' =>
          match byte_at s i, go k' (i + 1)%Z with
          | Some b, Some r => Some (Z.lor b (Z.shiftl r 8))
          | _, _ => None
          end
      end in
    match go n (offset s) with
    | Some v => (Ok v, mkStream (mem s) (offset s + Z.of_nat n))
    | None => (Raise (OtherException "EndOfStream"), s)
    end.

Definition le_ops : StreamOps Z (Z * Z) := {|
  readUInt32 := read_le 4;
  readBool8 := (b <- read_le 1 ;; ret (negb (b =? 0)%Z));
  readFloat := read_le 4;
  StripDataFlags_deserialise :=
    (g <- read_le 1 ;; c <- read_le 1 ;; ret (g, c));
  is_stripped_for_server := fun f => Z.testbit (fst f) 1;
  is_stripped_for_editor := fun f => Z.testbit (fst f) 0;
  is_stripped_for_custom := fun n f => negb (Z.land (snd f) n =? 0)%Z;
|}.

End InstancedStaticMeshComponentObject.

(** ** Proxy structures of [ue/proxy.py] *)

Module UEProxyStructure.

Section Proxy.
Variable UEBase : Type.

(** [vars(self)]: field name to sparse index-to-value map. *)
Abbreviation fields := (gmap string (gmap Z UEBase)).

(** [__init__]: every field starts as a copy of the type's default. *)
Definition __init__ (defaults : fields) : fields := (fun default => default) <$> defaults.

(** [for i, value in field_values.items(): target_field[i] = value] *)
Definition store_all (field_values : gmap Z UEBase) (target_field : gmap Z UEBase)
  : gmap Z UEBase :=
  fold_left (fun t iv => <[fst iv := snd iv]> t) (map_to_list field_values) target_field.

(** one turn of the outer loop of [update]; [target_field] is the very
    dictionary held in [target_dict], so writing to it writes there *)
Definition update_field (nf : string * gmap Z UEBase) : M fields unit :=
  let (name, field_values) := nf in
  target_dict <- get ;;
  (if bool_decide (target_dict !! name = None) then modify (<[name := ∅]>) else ret tt) ;;;
  target_dict <- get ;;
  match target_dict !! name with
  | None => raise KeyError
  | Some target_field => modify (<[name := store_all field_values target_field]>)
  end.

Definition update (values : fields) : M fields unit :=
  for_each (map_to_list values) update_field.

End Proxy.

(** [uemap]: an argument is [None], an element already, or a value for
    [uetype.create]. *)
Inductive arg (UEBase Tval : Type) : Type :=
| ArgNone
| ArgElement (v : UEBase)
| ArgValue (v : Tval).
Arguments ArgNone {UEBase Tval}.
Arguments ArgElement {UEBase Tval} v.
Arguments ArgValue {UEBase Tval} v.

Section Declaring.
Variable UEBase : Type.

(** the loop over [enumerate(args)], from index [i] on *)
Fixpoint uemap_from {Tval : Type} (create : Tval -> UEBase) (i : Z)
    (args : list (arg UEBase Tval)) (output : gmap Z UEBase) : gmap Z UEBase :=
  match args with
  | [] => output
  | ArgNone :: args' => uemap_from create (i + 1) args' output
  | ArgElement v :: args' => uemap_from create (i + 1) args' (<[i := v]> output)
  | ArgValue v :: args' => uemap_from create (i + 1) args' (<[i := create v]> output)
  end.

Definition uemap {Tval : Type} (create : Tval -> UEBase) (args : list (arg UEBase Tval))
  : gmap Z UEBase :=
  uemap_from create 0 args ∅.




End Declaring.

End UEProxyStructure.

(** * Properties *)

(** ** Dictionaries *)

Section PyDictFacts.
Context {K V : Type} `{EqDecision K}.
Implicit Types (d : pydict K V) (k : K) (v : V).

Lemma dict_get_None k d : dict_get k d = None <-> k ∉ keys d.
Proof.
  unfold keys. induction d as [|[k' v'] d IH]; simpl.
  - split; [intros _; apply not_elem_of_nil | done].
  - rewrite not_elem_of_cons. destruct (decide (k' = k)) as [->|Hne].
    + split; [done | intros [? _]; done].
    + rewrite IH. split; [intros; split; [congruence | done] | intros [_ ?]; done].
Qed.

Lemma dict_remove_absent k d : k ∉ keys d -> dict_remove k d = d.
Proof.
  unfold keys. induction d as [|[k' v'] d IH]; simpl; [done|].
  rewrite not_elem_of_cons. intros [Hne Hd].
  destruct (decide (k' = k)); [congruence|]. by rewrite IH.
Qed.

Lemma keys_dict_remove_subseteq k d : keys (dict_remove k d) ⊆ keys d.
Proof.
  unfold keys. induction d as [|[k' v'] d IH]; simpl; [done|].
  destruct (decide (k' = k)); simpl.
  - intros x Hx. apply elem_of_cons. by right.
  - intros x. rewrite !elem_of_cons. intros [->|Hx]; [by left | right; by apply IH].
Qed.

Lemma wf_dict_remove k d : wf_dict d -> wf_dict (dict_remove k d).
Proof.
  unfold wf_dict, keys. induction d as [|[k' v'] d IH]; simpl; [done|].
  rewrite NoDup_cons. intros [Hk' Hd].
  destruct (decide (k' = k)); [done|]. simpl. apply NoDup_cons. split; [|by apply IH].
  intros Hin. apply Hk'. by apply (keys_dict_remove_subseteq k).
Qed.

Lemma dict_remove_not_in k d : wf_dict d -> k ∉ keys (dict_remove k d).
Proof.
  unfold wf_dict, keys. induction d as [|[k' v'] d IH]; simpl; [intros _; apply not_elem_of_nil|].
  rewrite NoDup_cons. intros [Hk' Hd].
  destruct (decide (k' = k)) as [->|Hne]; [done|].
  simpl. rewrite not_elem_of_cons. split; [congruence | by apply IH].
Qed.

Lemma length_dict_remove k d : (length (dict_remove k d) <= length d)%nat.
Proof.
  induction d as [|[k' v'] d IH]; simpl; [lia|].
  destruct (decide (k' = k)); simpl; lia.
Qed.

Lemma dict_set_absent k v d : k ∉ keys d -> dict_set k v d = d ++ [(k, v)].
Proof.
  unfold keys. induction d as [|[k' v'] d IH]; simpl; [done|].
  rewrite not_elem_of_cons. intros [Hne Hd].
  destruct (decide (k' = k)); [congruence|]. by rewrite IH.
Qed.

Lemma wf_dict_snoc k v d : wf_dict d -> k ∉ keys d -> wf_dict (d ++ [(k, v)]).
Proof.
  unfold wf_dict, keys. rewrite map_app. simpl. intros Hd Hk.
  apply NoDup_app. split; [done|]. split.
  - intros x Hx. rewrite list_elem_of_singleton. intros ->. done.
  - apply NoDup_singleton.
Qed.

End PyDictFacts.

(** ** The usage-ordered cache *)

Module CacheFacts.
Import UsageBasedCacheManager.

Lemma set_cache_set_cache c c' w : set_cache c (set_cache c' w) = set_cache c w.
Proof. reflexivity. Qed.

Lemma set_cache_same w : set_cache (cache (manager w)) w = w.
Proof. destruct w as [[] ? ? ? ?]. reflexivity. Qed.

(** the loop of [_purge] and [wipe] *)
Definition del_each (names : list str) : M World unit :=
  for_each names (fun name =>
    w <- get ;;
    c <- lift (dict_del name (cache (manager w))) ;;
    modify (set_cache c)).

Lemma del_each_prefix (c1 c2 : pydict str UAsset.t) w :
  wf_dict (c1 ++ c2) ->
  del_each (keys c1) (set_cache (c1 ++ c2) w) = (Ok tt, set_cache c2 w).
Proof.
  revert w. induction c1 as [|[k v] c1 IH]; intros w Hwf; [reflexivity|].
  unfold del_each in *. simpl. unfold bind at 1. simpl.
  unfold bind at 1, get at 1. simpl.
  unfold bind at 1, lift at 1, dict_del. simpl.
  destruct (decide (k = k)); [|done]. simpl.
  rewrite set_cache_set_cache. apply IH.
  unfold wf_dict, keys in *. simpl in Hwf. by apply NoDup_cons in Hwf as [_ ?].
Qed.

Lemma purge_exact (amount : Z) w :
  wf_dict (cache (manager w)) ->
  (0 <= amount <= Z.of_nat (length (cache (manager w))))%Z ->
  _purge amount w = (Ok tt, set_cache (skipn (Z.to_nat amount) (cache (manager w))) w).
Proof.
  intros Hwf Ham. unfold _purge, bind at 1, get at 1. simpl.
  destruct (amount <? 0)%Z eqn:Hneg; [lia|].
  set (n := Z.to_nat amount). set (c := cache (manager w)) in *.
  replace (firstn n (keys c)) with (keys (firstn n c))
    by (unfold keys; by rewrite firstn_map).
  rewrite <- (set_cache_same w) at 1. fold c.
  rewrite <- (firstn_skipn n c) at 2.
  apply del_each_prefix. by rewrite firstn_skipn.
Qed.

Definition count (w : World) : Z := Z.of_nat (length (cache (manager w))).

(** the cache as [add] leaves it before [_maybe_purge] looks at it *)
Definition inserted (name : str) (asset : UAsset.t) (w : World) : pydict str UAsset.t :=
  dict_set name asset (snd (dict_pop name (cache (manager w)))).

(** this [add] reaches the purge of [_maybe_purge] *)
Definition triggers_purge (name : str) (asset : UAsset.t) (w : World) : Prop :=
  (max_count (manager w) <= Z.of_nat (length (inserted name asset w)))%Z.

(** one [add], made while the process has [sample] bytes resident *)
Definition add_under (x : Z * str * UAsset.t) : M World unit :=
  let '(sample, name, asset) := x in
  modify (set_rss sample) ;;; add name asset.

Record bounded (Mx K : Z) (w : World) : Prop := {
  bounded_wf : wf_dict (cache (manager w));
  bounded_max : max_count (manager w) = Mx;
  bounded_keep : keep_count (manager w) = K;
  bounded_count : (count w < Mx)%Z;
}.

Lemma inserted_snoc name asset w :
  wf_dict (cache (manager w)) ->
  inserted name asset w = dict_remove name (cache (manager w)) ++ [(name, asset)].
Proof.
  intros Hwf. unfold inserted. simpl. apply dict_set_absent. by apply dict_remove_not_in.
Qed.

Lemma inserted_wf name asset w :
  wf_dict (cache (manager w)) -> wf_dict (inserted name asset w).
Proof.
  intros Hwf. rewrite inserted_snoc by done.
  apply wf_dict_snoc; [by apply wf_dict_remove | by apply dict_remove_not_in].
Qed.

Lemma inserted_length name asset w :
  wf_dict (cache (manager w)) ->
  (1 <= length (inserted name asset w) <= S (length (cache (manager w))))%nat.
Proof.
  intros Hwf. rewrite inserted_snoc by done. rewrite length_app. simpl.
  pose proof (length_dict_remove name (cache (manager w))). lia.
Qed.

Lemma wf_skipn {K V} (n : nat) (d : pydict K V) : wf_dict d -> wf_dict (skipn n d).
Proof.
  unfold wf_dict, keys. rewrite <- (firstn_skipn n d) at 1. rewrite map_app.
  intros Hnd. by apply NoDup_app in Hnd as (_ & _ & ?).
Qed.

Lemma add_unfold name asset w :
  add name asset w = _maybe_purge (set_cache (inserted name asset w) w).
Proof. reflexivity. Qed.

Lemma maybe_purge_run w :
  wf_dict (cache (manager w)) ->
  (0 <= keep_count (manager w) < max_count (manager w))%Z ->
  exists w',
    _maybe_purge w = (Ok tt, w') /\
    max_count (manager w') = max_count (manager w) /\
    keep_count (manager w') = keep_count (manager w) /\
    cache (manager w') =
      (let c := cache (manager w) in
       if (max_count (manager w) <=? Z.of_nat (length c))%Z
       then skipn (Z.to_nat (Z.of_nat (length c) - keep_count (manager w))) c
       else c).
Proof.
  intros Hwf HK. unfold _maybe_purge, bind at 1, get at 1. cbv zeta.
  set (w1 := if (highest_memory_seen (manager w) <? rss w)%Z
             then set_highest_memory_seen (rss w) w else w).
  assert (Hstep : (if (highest_memory_seen (manager w) <? rss w)%Z
                   then modify (set_highest_memory_seen (rss w)) else ret tt) w
                  = (Ok tt, w1)).
  { subst w1. by destruct (_ <? _)%Z. }
  assert (Hc1 : cache (manager w1) = cache (manager w)
                /\ max_count (manager w1) = max_count (manager w)
                /\ keep_count (manager w1) = keep_count (manager w)).
  { subst w1. by destruct (_ <? _)%Z. }
  destruct Hc1 as (Hc1 & Hm1 & Hk1).
  unfold bind at 1. rewrite Hstep. unfold bind at 1, get at 1. cbv zeta.
  rewrite Hc1, Hm1, Hk1.
  destruct (max_count (manager w) <=? Z.of_nat (length (cache (manager w))))%Z eqn:Hfull.
  - unfold bind at 1, log, modify at 1.
    rewrite purge_exact; simpl; rewrite ?Hc1; [|done|lia].
    eexists. split; [reflexivity|]. simpl. by rewrite ?Hm1, ?Hk1, ?Hc1.
  - eexists. split; [reflexivity|]. done.
Qed.

(** What [add] does to a well-formed cache: the entry goes to the end, and
    when that fills the cache, the oldest entries go until [keep_count]
    are left. *)
Lemma add_run name asset w :
  wf_dict (cache (manager w)) ->
  (0 <= keep_count (manager w) < max_count (manager w))%Z ->
  exists w',
    add name asset w = (Ok tt, w') /\
    max_count (manager w') = max_count (manager w) /\
    keep_count (manager w') = keep_count (manager w) /\
    wf_dict (cache (manager w')) /\
    cache (manager w') =
      (let c := inserted name asset w in
       if (max_count (manager w) <=? Z.of_nat (length c))%Z
       then skipn (Z.to_nat (Z.of_nat (length c) - keep_count (manager w))) c
       else c).
Proof.
  intros Hwf HK.
  pose proof (inserted_wf name asset w Hwf) as Hwf'.
  rewrite add_unfold. cbv zeta.
  set (c := inserted name asset w) in *.
  destruct (maybe_purge_run (set_cache c w)) as (w' & Hrun & Hm & Hk & Hc);
    [done | done |].
  exists w'. split; [done|]. simpl in *. repeat split; try done.
  rewrite Hc. destruct (_ <=? _)%Z; [by apply wf_skipn | done].
Qed.

Lemma add_under_bounded Mx K x w :
  (0 <= K < Mx)%Z -> bounded Mx K w ->
  exists w', add_under x w = (Ok tt, w') /\ bounded Mx K w'.
Proof.
  intros HK [Hwf Hmax Hkeep Hcount]. destruct x as [[sample name] asset].
  unfold add_under, bind at 1, modify at 1. simpl.
  destruct (add_run name asset (set_rss sample w)) as (w' & Hrun & Hm & Hk & Hwf' & Hc);
    [done | simpl; lia |].
  exists w'. split; [done|]. simpl in *.
  split; [done | congruence | congruence |].
  unfold count in *. rewrite Hc.
  pose proof (inserted_length name asset (set_rss sample w) Hwf) as Hlen. simpl in Hlen.
  destruct (_ <=? _)%Z eqn:Hfull.
  - rewrite length_skipn. lia.
  - lia.
Qed.

(** C4: with [max_count = M] and [keep_count = K], [0 <= K < M], every
    sequence of [add]s from the empty cache runs to its end, the entry count
    that [get_count] returns afterwards is at most [M], and a further [add]
    that triggers the purge leaves exactly [K] entries. *)
Theorem cache_count_bound (Mx K mm : Z) (xs : list (Z * str * UAsset.t)) (w0 : World) :
  (0 <= K < Mx)%Z ->
  manager w0 = __init__ Mx mm K ->
  exists w n,
    for_each xs add_under w0 = (Ok tt, w) /\
    get_count w = (Ok n, w) /\ (n <= Mx)%Z /\
    forall sample name asset,
      triggers_purge name asset w ->
      exists w', add_under (sample, name, asset) w = (Ok tt, w') /\
                 get_count w' = (Ok K, w').
Proof.
  intros HK Hinit.
  assert (Hb : bounded Mx K w0).
  { split; unfold count; rewrite Hinit; simpl; try done; [constructor | lia]. }
  clear Hinit. revert w0 Hb. induction xs as [|x xs IH]; intros w0 Hb.
  - exists w0, (count w0). split; [reflexivity|]. split; [reflexivity|].
    split; [destruct Hb; lia|].
    intros sample name asset Htrig. destruct Hb as [Hwf Hmax Hkeep Hcount].
    unfold add_under, bind at 1, modify at 1. simpl.
    destruct (add_run name asset (set_rss sample w0)) as (w' & Hrun & Hm & Hk & Hwf' & Hc);
      [done | simpl; lia |].
    exists w'. split; [done|]. unfold get_count, bind, get, ret. simpl. do 2 f_equal.
    unfold triggers_purge in Htrig. cbv zeta in Hc. simpl in Hc.
    change (inserted name asset (set_rss sample w0)) with (inserted name asset w0) in Hc.
    rewrite Hc. destruct (_ <=? _)%Z eqn:Hfull; [|lia].
    rewrite length_skipn. lia.
  - destruct (add_under_bounded Mx K x w0 HK Hb) as (w1 & Hrun & Hb1).
    destruct (IH w1 Hb1) as (w & n & Hrest & Hn).
    exists w, n. split; [|done].
    simpl. unfold bind at 1. by rewrite Hrun.
Qed.

Lemma cache_count_bound_witness :
  (0 <= 1 < 2)%Z /\
  exists w n,
    for_each [(0%Z, lit "/Game/A", UAsset.mk [] [] [] [] None None FullParse);
              (0%Z, lit "/Game/B", UAsset.mk [] [] [] [] None None FullParse)]
      add_under (mkWorld (__init__ 2 1024 1) [] 0 FullParse 0) = (Ok tt, w) /\
    get_count w = (Ok n, w) /\ (n <= 2)%Z /\
    forall sample name asset,
      triggers_purge name asset w ->
      exists w', add_under (sample, name, asset) w = (Ok tt, w') /\
                 get_count w' = (Ok 1%Z, w').
Proof. split; [lia|]. apply (cache_count_bound 2 1 1024); [lia | reflexivity]. Defined.



(** C5: a cached container that was stored from a partial parse is a miss
    for the context-aware lookup made under a context that requires a full
    parse, although the lookup of the wrapped manager returns it (and, in
    both, the entry has moved to the most recently used end). *)
Theorem partial_entry_misses_full_lookup (name : str) (asset : UAsset.t) (w : World) :
  dict_get name (cache (manager w)) = Some asset ->
  UAsset.context asset = PartialParse ->
  ctx w = FullParse ->
  exists w1,
    UsageBasedCacheManager.lookup name w = (Ok (Some asset), w1) /\
    ContextAwareCacheWrapper.lookup name w
      = (Ok None, add_log (mkLog DEBUG "Re-parsing asset for more data: %s" name) w1).
Proof.
  intros Hhit Hpartial Hfull.
  assert (Hrun : exists w1, lookup name w = (Ok (Some asset), w1) /\ ctx w1 = ctx w).
  { unfold lookup, bind at 1, get at 1, dict_pop. rewrite Hhit.
    eexists. split; reflexivity. }
  destruct Hrun as (w1 & Hrun & Hctx). exists w1. split; [done|].
  unfold ContextAwareCacheWrapper.lookup, bind at 1, get at 1.
  unfold bind at 1. rewrite Hrun.
  unfold UAsset.is_context_satisfied. rewrite Hfull, Hpartial. reflexivity.
Qed.

Definition partial_A : UAsset.t :=
  UAsset.mk (lit "/Game/A") (lit "A") (lit ".uasset") [] None None PartialParse.
Definition world_with_partial_A : World :=
  mkWorld (mkCache [(lit "/Game/A", partial_A)] 3000 0 500 0) [] 0 FullParse 0.

Lemma partial_entry_misses_full_lookup_witness :
  exists w1,
    UsageBasedCacheManager.lookup (lit "/Game/A") world_with_partial_A
      = (Ok (Some partial_A), w1) /\
    ContextAwareCacheWrapper.lookup (lit "/Game/A") world_with_partial_A
      = (Ok None,
         add_log (mkLog DEBUG "Re-parsing asset for more data: %s" (lit "/Game/A")) w1).
Proof.
  apply (partial_entry_misses_full_lookup (lit "/Game/A") partial_A world_with_partial_A);
    reflexivity.
Defined.

End CacheFacts.

(** ** What a computation leaves untouched *)

Section Frames.
Context {St X : Type} (proj : St -> X).

(** [m] never changes the [proj] part of the state, whatever its outcome. *)
Definition preserves {A} (m : M St A) : Prop :=
  forall s r s', m s = (r, s') -> proj s' = proj s.

Lemma preserves_ret {A} (a : A) : preserves (ret a).
Proof. intros s r s' [= _ <-]. done. Qed.

Lemma preserves_raise {A} (e : exn) : preserves (raise (A := A) e).
Proof. intros s r s' [= _ <-]. done. Qed.

Lemma preserves_lift {A} (x : result A) : preserves (lift x).
Proof. intros s r s' [= _ <-]. done. Qed.

Lemma preserves_get : preserves get.
Proof. intros s r s' [= _ <-]. done. Qed.

Lemma preserves_modify (f : St -> St) :
  (forall s, proj (f s) = proj s) -> preserves (modify f).
Proof. intros Hf s r s' [= _ <-]. apply Hf. Qed.

Lemma preserves_bind {A B} (m : M St A) (k : A -> M St B) :
  preserves m -> (forall a, preserves (k a)) -> preserves (bind m k).
Proof.
  intros Hm Hk s r s'. unfold bind. destruct (m s) as [[a|e] s1] eqn:Hms.
  - intros Hks. rewrite (Hk a _ _ _ Hks). by apply (Hm _ _ _ Hms).
  - intros [= _ <-]. by apply (Hm _ _ _ Hms).
Qed.

Lemma preserves_try_except {A} (body : M St A) (handler : exn -> M St A) :
  preserves body -> (forall e, preserves (handler e)) ->
  preserves (try_except body handler).
Proof.
  intros Hb Hh s r s'. unfold try_except. destruct (body s) as [[a|e] s1] eqn:Hbs.
  - intros [= _ <-]. by apply (Hb _ _ _ Hbs).
  - intros Hhs. rewrite (Hh e _ _ _ Hhs). by apply (Hb _ _ _ Hbs).
Qed.

Lemma preserves_for_each {A} (xs : list A) (body : A -> M St unit) :
  (forall x, preserves (body x)) -> preserves (for_each xs body).
Proof.
  intros Hbody. induction xs as [|x xs IH]; simpl.
  - apply preserves_ret.
  - apply preserves_bind; [apply Hbody | intros _; apply IH].
Qed.

End Frames.

(** Solves [preserves proj m] for a computation built from the monad's
    operations, case analyses and state updates that keep [proj]. *)
Ltac frame :=
  repeat first
    [ progress intros
    | apply preserves_ret | apply preserves_raise | apply preserves_lift
    | apply preserves_get
    | apply preserves_bind
    | apply preserves_try_except
    | apply preserves_for_each
    | apply preserves_modify; intros; reflexivity
    | match goal with
      | |- preserves _ (if ?b then _ else _) => destruct b
      | |- preserves _ (match ?x with _ => _ end) => destruct x
      | |- preserves _ (let (_, _) := ?x in _) => destruct x
      end ].

Module LoaderFacts.
Import AssetLoader.

Lemma log_keeps_releases l m a : preserves release_calls (log l m a).
Proof. unfold log. frame. Qed.

Lemma add_keeps_releases name asset :
  preserves release_calls (ContextAwareCacheWrapper.add name asset).
Proof.
  unfold ContextAwareCacheWrapper.add, UsageBasedCacheManager.add,
    UsageBasedCacheManager._maybe_purge, UsageBasedCacheManager._purge, log.
  frame.
Qed.

Lemma select_keeps_releases assetname asset :
  preserves release_calls (select_default_export assetname asset).
Proof. unfold select_default_export, log. frame. Qed.

Lemma select_keeps_manager assetname asset :
  preserves manager (select_default_export assetname asset).
Proof. unfold select_default_export, log. frame. Qed.

Section LoadingFacts.
Variable load_raw_asset : str -> result (memoryview * str).
Variable UAsset_new : memoryview -> result UAsset.t.
Variable deserialise : UAsset.t -> result UAsset.t.
Variable link : UAsset.t -> result UAsset.t.

#[local] Abbreviation _load_asset := (_load_asset load_raw_asset UAsset_new deserialise link).
#[local] Abbreviation parse := (parse UAsset_new deserialise link).

(** the container as [_load_asset] hands it to [deserialise] *)
Definition fresh (assetname ext : str) (a0 : UAsset.t) : UAsset.t :=
  UAsset.set_provenance assetname (List.last (PyStr.split slash assetname) []) ext a0.

(** [ex] is raised in the deserialise phase, or in the link phase of a load
    that links *)
Inductive phase_raises (assetname ext : str) (mem : memoryview) (doNotLink : bool)
    (ex : exn) : Prop :=
| deserialise_raises a0 :
    UAsset_new mem = Ok a0 ->
    deserialise (fresh assetname ext a0) = Raise ex ->
    phase_raises assetname ext mem doNotLink ex
| link_raises a0 a1 :
    UAsset_new mem = Ok a0 ->
    deserialise (fresh assetname ext a0) = Ok a1 ->
    doNotLink = false ->
    link a1 = Raise ex ->
    phase_raises assetname ext mem doNotLink ex.

Lemma parse_keeps_world assetname ext mem doNotLink w :
  snd (parse assetname ext mem doNotLink w) = w.
Proof.
  unfold AssetLoader.parse, bind, lift, try_except, raise, ret.
  destruct (UAsset_new mem) as [a0|e]; [|done]. fold (fresh assetname ext a0).
  destruct (deserialise _) as [a1|e]; [|done].
  destruct doNotLink; [done|]. by destruct (link a1).
Qed.

Lemma parse_failure assetname ext mem doNotLink ex w :
  phase_raises assetname ext mem doNotLink ex ->
  parse assetname ext mem doNotLink w = (Raise (AssetParseError assetname ex), w).
Proof.
  unfold AssetLoader.parse, bind, lift, try_except, raise, ret.
  intros [a0 Hnew Hdes | a0 a1 Hnew Hdes -> Hlink]; rewrite Hnew;
    fold (fresh assetname ext a0); rewrite Hdes; [done|]. by rewrite Hlink.
Qed.

(** the world after the opening debug line of [_load_asset] *)
Definition announced (assetname : str) (quiet : bool) (w : World) : World :=
  if quiet then w else add_log (mkLog DEBUG "Loading asset: %s" assetname) w.

Lemma load_asset_unfold assetname doNotLink quiet cache_result mem ext w :
  load_raw_asset assetname = Ok (mem, ext) ->
  _load_asset assetname doNotLink quiet cache_result w =
    match parse assetname ext mem doNotLink (announced assetname quiet w) with
    | (Ok (inl asset), w1) => (Ok asset, count_release w1)
    | (Ok (inr asset), w1) =>
        (asset <- select_default_export assetname asset ;;
         (if cache_result then ContextAwareCacheWrapper.add assetname asset else ret tt) ;;;
         ret asset) (count_release w1)
    | (Raise e, w1) => (Raise e, count_release w1)
    end.
Proof.
  intros Hraw. unfold AssetLoader._load_asset, announced.
  unfold bind at 1. destruct quiet; simpl.
  - unfold bind at 1, lift at 1. rewrite Hraw.
    unfold bind at 1, try_finally, modify.
    by destruct (parse _ _ _ _ _) as [[[a|a]|e] w1].
  - unfold bind at 1, lift at 1. rewrite Hraw.
    unfold bind at 1, try_finally, modify.
    by destruct (parse _ _ _ _ _) as [[[a|a]|e] w1].
Qed.

Lemma load_asset_parse_failure assetname doNotLink quiet cache_result mem ext ex w :
  load_raw_asset assetname = Ok (mem, ext) ->
  phase_raises assetname ext mem doNotLink ex ->
  _load_asset assetname doNotLink quiet cache_result w =
    (Raise (AssetParseError assetname ex), count_release (announced assetname quiet w)).
Proof.
  intros Hraw Hfail. rewrite (load_asset_unfold _ _ _ _ _ _ _ Hraw).
  by rewrite (parse_failure _ _ _ _ _ _ Hfail).
Qed.

(** C1: an exception of the deserialise or link phase leaves [_load_asset]
    as [AssetParseError] for that asset name, chained to the exception, and
    the cache is what it was: nothing is stored under the name. *)
Theorem parse_error_keeps_cache
    (assetname : str) (doNotLink quiet cache_result : bool)
    (mem : memoryview) (ext : str) (ex : exn) (w : World) :
  load_raw_asset assetname = Ok (mem, ext) ->
  phase_raises assetname ext mem doNotLink ex ->
  exists w',
    _load_asset assetname doNotLink quiet cache_result w
      = (Raise (AssetParseError assetname ex), w') /\
    manager w' = manager w /\
    dict_get assetname (cache (manager w')) = dict_get assetname (cache (manager w)).
Proof.
  intros Hraw Hfail. eexists. split; [by eapply load_asset_parse_failure|].
  assert (Hm : manager (count_release (announced assetname quiet w)) = manager w)
    by (by destruct quiet).
  by rewrite Hm.
Qed.

(** C8: once [load_raw_asset] has handed over the buffer, every way out of
    [_load_asset] (the result of a full load, the early return of a partial
    one, any exception) has called [mem.release()] exactly once; when no
    buffer was obtained, there is none to release. *)
Theorem buffer_released_once
    (assetname : str) (doNotLink quiet cache_result : bool) (w : World) :
  release_calls (snd (_load_asset assetname doNotLink quiet cache_result w)) =
    match load_raw_asset assetname with
    | Ok _ => S (release_calls w)
    | Raise _ => release_calls w
    end.
Proof.
  destruct (load_raw_asset assetname) as [[mem ext]|e] eqn:Hraw.
  - rewrite (load_asset_unfold _ _ _ _ _ _ _ Hraw).
    pose proof (parse_keeps_world assetname ext mem doNotLink (announced assetname quiet w))
      as Hw.
    destruct (parse _ _ _ _ _) as [[[a|a]|e] w1]; simpl in Hw; subst w1.
    + by destruct quiet.
    + pose (rest := (asset <- select_default_export assetname a ;;
                     (if cache_result then ContextAwareCacheWrapper.add assetname asset
                      else ret tt) ;;; ret asset) : M World UAsset.t).
      assert (Hkeep : preserves release_calls rest).
      { apply preserves_bind; [apply select_keeps_releases|]. intros a'.
        apply preserves_bind; [|intros; apply preserves_ret].
        destruct cache_result; [apply add_keeps_releases | apply preserves_ret]. }
      fold rest. destruct (rest _) as [r w'] eqn:Hrest.
      simpl. rewrite (Hkeep _ _ _ Hrest). by destruct quiet.
    + by destruct quiet.
  - unfold AssetLoader._load_asset, bind, lift. rewrite Hraw. by destruct quiet.
Qed.

End LoadingFacts.

(** A loader whose containers never deserialise, to run the failure path. *)
Definition blank : UAsset.t := UAsset.mk [] [] [] [] None None PartialParse.
Definition empty_world : World :=
  mkWorld UsageBasedCacheManager.default [] 0 FullParse 0.

Lemma parse_error_keeps_cache_witness :
  exists w',
    _load_asset (fun _ => Ok ([], lit ".uasset")) (fun _ => Ok blank)
                (fun _ => Raise AssertionError) (fun a => Ok a)
                (lit "/Game/A") false false true empty_world
      = (Raise (AssetParseError (lit "/Game/A") AssertionError), w') /\
    manager w' = manager empty_world /\
    dict_get (lit "/Game/A") (cache (manager w'))
      = dict_get (lit "/Game/A") (cache (manager empty_world)).
Proof.
  apply (parse_error_keeps_cache (fun _ => Ok ([], lit ".uasset")) (fun _ => Ok blank)
           (fun _ => Raise AssertionError) (fun a => Ok a)
           (lit "/Game/A") false false true [] (lit ".uasset") AssertionError empty_world).
  - reflexivity.
  - apply (deserialise_raises _ _ _ _ _ _ _ _ blank); reflexivity.
Defined.

(** *** Default-export selection *)

Definition top_exports (asset : UAsset.t) : list ExportTableItem.t :=
  List.filter (fun export => PyStr.eqb (ExportTableItem.namespace export) (lit "None"))
              (UAsset.exports asset).

(** the top-level exports named [Default__...] *)
Definition template_exports (asset : UAsset.t) : list ExportTableItem.t :=
  List.filter (fun export => PyStr.startswith (lit "Default__") (ExportTableItem.name export))
              (top_exports asset).

(** the top-level exports named as the container's leaf name, whatever the
    case *)
Definition leaf_named (assetname : str) (asset : UAsset.t) : list ExportTableItem.t :=
  List.filter (fun export =>
                 PyStr.eqb (PyStr.lower (ExportTableItem.name export))
                           (PyStr.lower (List.last (PyStr.split slash assetname) [])))
              (top_exports asset).

(** The selection in the specification's words: the first template export,
    else the first export named as the leaf, else none. *)
Definition first_match_selection (assetname : str) (asset : UAsset.t)
  : option ExportTableItem.t :=
  match template_exports asset with
  | export :: _ => Some export
  | [] => head (leaf_named assetname asset)
  end.

Definition warn_templates (assetname : str) : LogRecord :=
  mkLog WARNING "Found more than one Default__ entry in %s!" assetname.
Definition warn_leaf (assetname : str) : LogRecord :=
  mkLog WARNING "Found more than <assetname> export in %s!" assetname.

(** C2, as the code has it: among the exports without namespace, the first
    one named [Default__...] is selected, with a warning when there are
    several; failing that, the export named as the leaf name (case
    ignored) is selected when there is exactly one, and when there are
    several a warning is logged and no default export is set; failing that
    too, there is no default export, and no error. *)
Theorem default_export_selection (assetname : str) (asset : UAsset.t) (w : World) :
  exists asset' w',
    select_default_export assetname asset w = (Ok asset', w') /\
    UAsset.default_export asset' =
      match template_exports asset with
      | export :: _ => Some export
      | [] => match leaf_named assetname asset with
              | [export] => Some export
              | _ => None
              end
      end /\
    logged w' = logged w ++
      match template_exports asset with
      | _ :: _ :: _ => [warn_templates assetname]
      | [_] => []
      | [] => match leaf_named assetname asset with
              | _ :: _ :: _ => [warn_leaf assetname]
              | _ => []
              end
      end /\
    manager w' = manager w /\
    UAsset.exports asset' = UAsset.exports asset.
Proof.
  unfold select_default_export.
  fold (top_exports asset). fold (template_exports asset). fold (leaf_named assetname asset).
  destruct (template_exports asset) as [|d [|d' ds]].
  - destruct (leaf_named assetname asset) as [|e [|e' es]]; simpl;
      do 2 eexists; (split; [reflexivity|]); simpl;
      rewrite ?app_nil_r; repeat split; done.
  - simpl. do 2 eexists. split; [reflexivity|]. simpl.
    rewrite app_nil_r. repeat split; done.
  - simpl. do 2 eexists. split; [reflexivity|]. simpl. repeat split; done.
Qed.

Definition Foo_export : ExportTableItem.t :=
  ExportTableItem.mk (lit "Foo") (lit "None") (lit "Blueprint").
Definition foo_export : ExportTableItem.t :=
  ExportTableItem.mk (lit "foo") (lit "None") (lit "Blueprint").
Definition two_foos : UAsset.t :=
  UAsset.mk (lit "/Game/Foo") (lit "Foo") (lit ".uasset")
            [Foo_export; foo_export] None None FullParse.

(** With two top-level exports named as the leaf, the first in table order
    is what the specification's wording selects; the code selects none. *)
Lemma ambiguous_leaf_name_selects_none :
  exists asset' w',
    select_default_export (lit "/Game/Foo") two_foos empty_world = (Ok asset', w') /\
    UAsset.default_export asset' = None /\
    first_match_selection (lit "/Game/Foo") two_foos = Some Foo_export /\
    UAsset.default_export asset' <> first_match_selection (lit "/Game/Foo") two_foos.
Proof.
  exists two_foos, (add_log (warn_leaf (lit "/Game/Foo")) empty_world).
  repeat split; [reflexivity.. | discriminate].
Qed.

End LoaderFacts.

(** ** The instanced-geometry blob parser *)

Module ObjectsFacts.
Import InstancedStaticMeshComponentObject.

Section ParserFacts.
Context {F SDF : Type} `{StreamOps F SDF}.

#[local] Abbreviation field := (@visible_instances F).

Lemma on_stream_keeps_field {A} (m : M MemoryStream A) :
  preserves field (on_stream m).
Proof.
  intros o r o'. unfold on_stream. destruct (m (stream o)) as [r' s'].
  intros [= _ <-]. reflexivity.
Qed.

Lemma skip_keeps_field (n : Z) : preserves field (skip n).
Proof. unfold skip. frame. Qed.

Lemma times_keeps_field (n : nat) (body : M Obj unit) :
  preserves field body -> preserves field (times n body).
Proof.
  intros Hbody. induction n as [|n IH]; simpl; [apply preserves_ret|].
  apply preserves_bind; [done | intros _; apply IH].
Qed.

Ltac field_frame :=
  repeat first [ apply on_stream_keeps_field | apply skip_keeps_field
               | apply times_keeps_field | progress frame ].

Lemma lod_sections_keep_field : preserves field lod_sections.
Proof. unfold lod_sections, lod_section, color_section. field_frame. Qed.

(** up to the struct-size check nothing is stored in the object *)
Lemma size_check_fails (o o1 o2 : Obj) (struct_size : Z) :
  lod_sections o = (Ok tt, o1) ->
  on_stream readUInt32 o1 = (Ok struct_size, o2) ->
  struct_size <> 80%Z ->
  _deserialise o = (Raise AssertionError, o2) /\
  visible_instances o2 = visible_instances o.
Proof.
  intros Hlod Hread Hne. split.
  - unfold _deserialise, bind at 1. rewrite Hlod.
    unfold bind at 1. rewrite Hread.
    unfold bind at 1. by destruct (Z.eqb_spec struct_size 80).
  - rewrite (on_stream_keeps_field _ _ _ _ Hread).
    apply (lod_sections_keep_field _ _ _ Hlod).
Qed.

End ParserFacts.

(** C6: when the struct size stored after the LOD sections is not 80,
    [_deserialise] raises (the assertion fails) before any instance is read,
    [visible_instances] is not produced, and a load whose deserialise phase
    runs the parser ends in [AssetParseError] for the asset, with the
    cache as it was. *)
Theorem struct_size_mismatch_is_parse_error {F SDF : Type} `{StreamOps F SDF}
    (o o1 o2 : Obj) (struct_size : Z)
    (load_raw_asset : str -> result (memoryview * str))
    (UAsset_new : memoryview -> result UAsset.t)
    (deserialise link : UAsset.t -> result UAsset.t)
    (assetname ext : str) (mem : memoryview) (a0 : UAsset.t)
    (doNotLink quiet cache_result : bool) (w : World) :
  lod_sections o = (Ok tt, o1) ->
  on_stream readUInt32 o1 = (Ok struct_size, o2) ->
  struct_size <> 80%Z ->
  load_raw_asset assetname = Ok (mem, ext) ->
  UAsset_new mem = Ok a0 ->
  (forall e, fst (_deserialise o) = Raise e ->
             deserialise (LoaderFacts.fresh assetname ext a0) = Raise e) ->
  _deserialise o = (Raise AssertionError, o2) /\
  visible_instances o2 = visible_instances o /\
  exists w',
    AssetLoader._load_asset load_raw_asset UAsset_new deserialise link
        assetname doNotLink quiet cache_result w
      = (Raise (AssetParseError assetname AssertionError), w') /\
    manager w' = manager w.
Proof.
  intros Hlod Hread Hne Hraw Hnew Hprop.
  destruct (size_check_fails o o1 o2 struct_size Hlod Hread Hne) as [Hrun Hfield].
  split; [done|]. split; [done|].
  eexists. split.
  - eapply LoaderFacts.load_asset_parse_failure; [done|].
    eapply LoaderFacts.deserialise_raises; [done|].
    apply Hprop. by rewrite Hrun.
  - by destruct quiet.
Qed.

(** a blob with no LOD section and a stored struct size of 81 *)
Definition drifted : Obj (F := Z) :=
  mkObj (mkStream [Byte.x00; Byte.x00; Byte.x00; Byte.x00;
                   Byte.x51; Byte.x00; Byte.x00; Byte.x00;
                   Byte.x01; Byte.x00; Byte.x00; Byte.x00] 0) None.

Definition run_parser (o : Obj (F := Z)) (a : UAsset.t) : result UAsset.t :=
  match fst (_deserialise (H := le_ops) o) with
  | Ok _ => Ok a
  | Raise e => Raise e
  end.

Definition drifted_at (pos : Z) : Obj (F := Z) :=
  mkObj (mkStream (mem (stream drifted)) pos) None.

Lemma struct_size_mismatch_is_parse_error_witness :
  _deserialise (H := le_ops) drifted = (Raise AssertionError, drifted_at 8) /\
  visible_instances (drifted_at 8) = visible_instances drifted /\
  exists w',
    AssetLoader._load_asset (fun _ => Ok ([], lit ".uasset")) (fun _ => Ok LoaderFacts.blank)
        (run_parser drifted) (fun a => Ok a)
        (lit "/Game/A") false false true LoaderFacts.empty_world
      = (Raise (AssetParseError (lit "/Game/A") AssertionError), w') /\
    manager w' = manager LoaderFacts.empty_world.
Proof.
  apply (struct_size_mismatch_is_parse_error (H := le_ops) drifted
           (drifted_at 4) (drifted_at 8) 81
           (fun _ => Ok ([], lit ".uasset")) (fun _ => Ok LoaderFacts.blank)
           (run_parser drifted) (fun a => Ok a)
           (lit "/Game/A") (lit ".uasset") [] LoaderFacts.blank false false true
           LoaderFacts.empty_world).
  - reflexivity.
  - reflexivity.
  - lia.
  - reflexivity.
  - reflexivity.
  - intros e He. unfold run_parser. rewrite He. reflexivity.
Defined.

End ObjectsFacts.

(** ** The path-match memo *)

Module PathMatchFacts.
Import PathMatch.

(** A query already in the memo is answered from it: no search is logged
    and no directory is read. *)
Lemma memo_hit (fs : FileSystem) (path : Path) (cached : option Path) (s : MemoState) :
  path_match_cache s !! path = Some cached ->
  find_caseinsensitive_path_match fs path s = (Ok cached, s).
Proof.
  intros Hhit. unfold find_caseinsensitive_path_match, bind, get. by rewrite Hhit.
Qed.

(** A match that is found is recorded under the path queried. *)
Lemma match_is_remembered (fs : FileSystem) (path : Path) (s : MemoState) r s' :
  path_match_cache s !! path = None ->
  find_caseinsensitive_path_match fs path s = (Ok (Some r), s') ->
  path_match_cache s' !! path = Some (Some r).
Proof.
  intros Hmiss. unfold find_caseinsensitive_path_match, bind at 1, get at 1.
  rewrite Hmiss. unfold bind at 1, modify at 1.
  destruct (exists_ fs path).
  - intros [= <- <-]. simpl. apply lookup_insert_eq.
  - unfold bind at 1, modify at 1. unfold bind at 1, lift.
    destruct (iterdir fs (parent path)) as [entries|e]; [|done].
    destruct (first_match _ entries) as [found|]; [|done].
    intros [= <- <-]. simpl. apply lookup_insert_eq.
Qed.

(** C7, what the code does when nothing matches: the answer is [None], the
    directory has been read, and the memo is what it was, so that the same
    query reads the directory again. *)
Theorem no_match_is_not_remembered
    (fs : FileSystem) (path : Path) (entries : list Path) (s : MemoState) :
  path_match_cache s !! path = None ->
  exists_ fs path = false ->
  iterdir fs (parent path) = Ok entries ->
  first_match (PyStr.lower (name path)) entries = None ->
  exists s1 s2,
    find_caseinsensitive_path_match fs path s = (Ok None, s1) /\
    path_match_cache s1 = path_match_cache s /\
    scanned s1 = scanned s ++ [parent path] /\
    find_caseinsensitive_path_match fs path s1 = (Ok None, s2) /\
    scanned s2 = scanned s ++ [parent path; parent path].
Proof.
  intros Hmiss Hex Hdir Hnone.
  assert (Hrun : forall s0, path_match_cache s0 !! path = None ->
            find_caseinsensitive_path_match fs path s0
              = (Ok None, note_scan (parent path) (note_search path s0))).
  { intros s0 Hs0. unfold find_caseinsensitive_path_match, bind at 1, get at 1.
    rewrite Hs0. unfold bind at 1, modify at 1. rewrite Hex.
    unfold bind at 1, modify at 1. unfold bind at 1, lift. rewrite Hdir.
    by rewrite Hnone. }
  do 2 eexists. split; [by apply Hrun|]. split; [done|]. split; [done|].
  split; [by apply Hrun|]. simpl. by rewrite <- app_assoc.
Qed.

(** the directory [Content] holds [Foo.uasset] only; the query is for
    [Bar.uasset] *)
Definition content_dir : list Path :=
  [[lit "Content"]; [lit "Content"; lit "Foo.uasset"]].
Definition query_bar : Path := [lit "Content"; lit "Bar.uasset"].
Definition nothing_yet : MemoState := mkMemo ∅ [] [].

Lemma no_match_is_not_remembered_witness :
  exists s1 s2,
    find_caseinsensitive_path_match (listed content_dir) query_bar nothing_yet
      = (Ok None, s1) /\
    path_match_cache s1 = path_match_cache nothing_yet /\
    scanned s1 = scanned nothing_yet ++ [parent query_bar] /\
    find_caseinsensitive_path_match (listed content_dir) query_bar s1 = (Ok None, s2) /\
    scanned s2 = scanned nothing_yet ++ [parent query_bar; parent query_bar].
Proof.
  apply (no_match_is_not_remembered (listed content_dir) query_bar
           [[lit "Content"; lit "Foo.uasset"]] nothing_yet); reflexivity.
Defined.

End PathMatchFacts.

(** ** Proxy structures *)

Lemma for_each_cons {St A} (x : A) (xs : list A) (body : A -> M St unit) :
  for_each (x :: xs) body = (body x ;;; for_each xs body).
Proof. reflexivity. Qed.

Module ProxyFacts.
Import UEProxyStructure.

Section ProxyFacts.
Context {UEBase : Type}.
Implicit Types (d : gmap string (gmap Z UEBase)) (t fv : gmap Z UEBase).

(** a new instance holds the defaults of its type, index by index *)
Lemma init_holds_defaults d name : __init__ UEBase d !! name = d !! name.
Proof. unfold __init__. rewrite lookup_fmap. by destruct (d !! name). Qed.

Lemma store_list (l : list (Z * UEBase)) t :
  NoDup l.*1 ->
  fold_left (fun t iv => <[fst iv := snd iv]> t) l t = list_to_map l ∪ t.
Proof.
  revert t. induction l as [|[i v] l IH]; intros t Hnd; simpl.
  - by rewrite (left_id_L ∅ (∪)).
  - rewrite fmap_cons in Hnd. apply NoDup_cons in Hnd as [Hi Hnd]. rewrite IH by done.
    rewrite <- insert_union_l. symmetry. apply insert_union_r.
    by apply not_elem_of_list_to_map_1.
Qed.

Lemma store_all_union fv t : store_all UEBase fv t = fv ∪ t.
Proof.
  unfold store_all. rewrite store_list by apply NoDup_fst_map_to_list.
  by rewrite list_to_map_to_list.
Qed.

(** one turn of the loop: the field is created when missing, and the
    overrides are laid over what it holds *)
Lemma update_field_run name fv d :
  update_field UEBase (name, fv) d
    = (Ok tt, <[name := fv ∪ default ∅ (d !! name)]> d).
Proof.
  unfold update_field, bind at 1, get at 1.
  destruct (d !! name) as [t|] eqn:Hd.
  - rewrite bool_decide_eq_false_2 by done.
    unfold bind, ret, get. rewrite Hd. unfold modify. by rewrite store_all_union.
  - rewrite bool_decide_eq_true_2 by done.
    unfold bind, modify, get. rewrite lookup_insert_eq.
    rewrite store_all_union. by rewrite insert_insert_eq.
Qed.

Lemma update_list (l : list (string * gmap Z UEBase)) d :
  NoDup l.*1 ->
  exists d',
    for_each l (update_field UEBase) d = (Ok tt, d') /\
    forall name,
      d' !! name = match (list_to_map l : gmap string (gmap Z UEBase)) !! name with
                   | Some fv => Some (fv ∪ default ∅ (d !! name))
                   | None => d !! name
                   end.
Proof.
  revert d. induction l as [|[k fv] l IH]; intros d Hnd.
  - exists d. split; [done|]. intros name. simpl. by rewrite lookup_empty.
  - rewrite fmap_cons in Hnd. apply NoDup_cons in Hnd as [Hk Hnd].
    destruct (IH (<[k := fv ∪ default ∅ (d !! k)]> d) Hnd) as (d' & Hrun & Hd').
    exists d'. split.
    + rewrite for_each_cons. unfold bind. by rewrite update_field_run.
    + intros name. rewrite Hd'. simpl.
      destruct (decide (k = name)) as [->|Hne].
      * rewrite lookup_insert_eq.
        rewrite (not_elem_of_list_to_map_1 _ _ Hk). by rewrite lookup_insert_eq.
      * by rewrite !lookup_insert_ne.
Qed.

(** [update] always runs to its end, and field by field the result is the
    overrides laid over what was there. *)
Lemma update_run (values : gmap string (gmap Z UEBase)) d :
  exists d',
    update UEBase values d = (Ok tt, d') /\
    forall name,
      d' !! name = match values !! name with
                   | Some fv => Some (fv ∪ default ∅ (d !! name))
                   | None => d !! name
                   end.
Proof.
  destruct (update_list (map_to_list values) d) as (d' & Hrun & Hd');
    [apply NoDup_fst_map_to_list|].
  exists d'. split; [done|]. intros name. rewrite Hd'. by rewrite list_to_map_to_list.
Qed.

(** C9: [update] never fails; afterwards every override value sits at its
    field and index, the field having been created when the instance lacked
    it, every index of the instance that the overrides do not mention keeps
    its value, and no index has gone. *)
Theorem update_merges_overrides (values : gmap string (gmap Z UEBase)) d :
  exists d',
    update UEBase values d = (Ok tt, d') /\
    (forall name fv, values !! name = Some fv ->
       exists t', d' !! name = Some t' /\
                  forall i v, fv !! i = Some v -> t' !! i = Some v) /\
    (forall name t i v,
       d !! name = Some t -> t !! i = Some v ->
       (forall fv, values !! name = Some fv -> fv !! i = None) ->
       exists t', d' !! name = Some t' /\ t' !! i = Some v) /\
    (forall name t i,
       d !! name = Some t -> is_Some (t !! i) ->
       exists t', d' !! name = Some t' /\ is_Some (t' !! i)).
Proof.
  destruct (update_run values d) as (d' & Hrun & Hd'). exists d'.
  split; [done|]. split; [|split].
  - intros name fv Hv. rewrite Hd', Hv. eexists. split; [done|].
    intros i v Hi. by apply lookup_union_Some_l.
  - intros name t i v Hd Ht Hnot. rewrite Hd'.
    destruct (values !! name) as [fv|] eqn:Hv.
    + eexists. split; [done|]. rewrite Hd. simpl.
      rewrite lookup_union_r; [done | by apply Hnot].
    + by exists t.
  - intros name t i Hd [v Ht]. rewrite Hd'.
    destruct (values !! name) as [fv|] eqn:Hv.
    + eexists. split; [done|]. rewrite Hd. simpl.
      rewrite lookup_union. rewrite Ht. by destruct (fv !! i).
    + exists t. by rewrite Ht.
Qed.

End ProxyFacts.

End ProxyFacts.

(** ** Facts about the string operations *)

Module PyStrFacts.
Import PyStr.

Lemma head_rev {A} (l : list A) : head (rev l) = last l.
Proof.
  destruct l as [|x l _] using rev_ind; [done|].
  rewrite rev_app_distr. simpl. by rewrite last_snoc.
Qed.

Lemma lstrip_noop (p : ascii -> bool) (s : str) :
  (forall c, head s = Some c -> p c = false) -> lstrip p s = s.
Proof.
  destruct s as [|c s]; [done|]. intros Hc. simpl. by rewrite (Hc c).
Qed.

Lemma rstrip_noop (p : ascii -> bool) (s : str) :
  (forall c, last s = Some c -> p c = false) -> rstrip p s = s.
Proof.
  intros Hc. unfold rstrip. rewrite lstrip_noop; [apply rev_involutive|].
  intros c Hhead. apply Hc. rewrite <- Hhead. by rewrite head_rev.
Qed.

Lemma strip_noop (p : ascii -> bool) (s : str) :
  (forall c, head s = Some c -> p c = false) ->
  (forall c, last s = Some c -> p c = false) -> strip p s = s.
Proof. intros Hh Hl. unfold strip. rewrite lstrip_noop by done. by apply rstrip_noop. Qed.

Lemma lstrip_Forall (P : ascii -> Prop) p (s : str) : Forall P s -> Forall P (lstrip p s).
Proof.
  induction 1 as [|c s Hc Hs IH]; simpl; [done|]. destruct (p c); [done|]. by constructor.
Qed.

Lemma strip_Forall (P : ascii -> Prop) p (s : str) : Forall P s -> Forall P (strip p s).
Proof.
  intros Hs. unfold strip, rstrip.
  apply Forall_rev, lstrip_Forall, Forall_rev, lstrip_Forall, Hs.
Qed.

Lemma before_Forall (d : ascii) (s : str) : Forall (fun c => c <> d) (before d s).
Proof.
  induction s as [|c s IH]; simpl; [done|]. case_bool_decide; [done|]. by constructor.
Qed.

Lemma contains_false (d : ascii) (s : str) :
  contains d s = false <-> Forall (fun c => c <> d) s.
Proof.
  unfold contains. induction s as [|c s IH]; simpl; [done|].
  rewrite orb_false_iff, IH, Forall_cons, bool_decide_eq_false. done.
Qed.

Lemma replace_Forall (P : ascii -> Prop) (a b : ascii) (s : str) :
  P b -> Forall P s -> Forall P (replace a b s).
Proof.
  intros Hb. unfold replace. induction 1 as [|c s Hc Hs IH]; simpl; [done|].
  constructor; [by case_bool_decide | done].
Qed.

Lemma replace_gone (a b : ascii) (s : str) :
  a <> b -> Forall (fun c => c <> a) (replace a b s).
Proof.
  intros Hab. unfold replace. induction s as [|c s IH]; simpl; [done|].
  constructor; [by case_bool_decide | done].
Qed.

Lemma replace_noop (a b : ascii) (s : str) :
  Forall (fun c => c <> a) s -> replace a b s = s.
Proof.
  unfold replace. induction 1 as [|c s Hc Hs IH]; simpl; [done|].
  rewrite bool_decide_eq_false_2 by done. by rewrite IH.
Qed.

Lemma split_nonempty (d : ascii) (s : str) : split d s <> [].
Proof.
  induction s as [|c s IH]; simpl; [done|].
  case_bool_decide; [done|]. by destruct (split d s).
Qed.

Lemma join_split (d : ascii) (s : str) : join d (split d s) = s.
Proof.
  induction s as [|c s IH]; simpl; [done|]. case_bool_decide as Hc.
  - subst c. pose proof (split_nonempty d s). simpl.
    destruct (split d s) as [|p ps]; [done|]. by rewrite IH.
  - pose proof (split_nonempty d s).
    destruct (split d s) as [|p [|q ps]]; [done| |]; simpl in *; by rewrite IH.
Qed.

(** the characters of the parts are those of the string, separators apart *)
Lemma split_Forall (P : ascii -> Prop) (d : ascii) (s : str) :
  Forall P s -> Forall (Forall (fun c => P c /\ c <> d)) (split d s).
Proof.
  induction 1 as [|c s Hc Hs IH]; simpl; [by repeat constructor|].
  case_bool_decide as Hd; [by constructor|].
  destruct (split d s) as [|p ps]; [by repeat constructor|].
  apply Forall_cons in IH as [Hp Hps]. by repeat constructor.
Qed.

Lemma split_join (d : ascii) (ps : list str) :
  ps <> [] -> Forall (Forall (fun c => c <> d)) ps -> split d (join d ps) = ps.
Proof.
  induction ps as [|p ps IH]; [done|]. intros _ Hps.
  apply Forall_cons in Hps as [Hp Hps].
  destruct ps as [|q ps].
  - clear IH Hps. simpl. induction Hp as [|c p Hc Hp IHp]; simpl; [done|].
    rewrite bool_decide_eq_false_2 by done. by rewrite IHp.
  - specialize (IH ltac:(done) Hps).
    change (join d (p :: q :: ps)) with (p ++ d :: join d (q :: ps)).
    set (rest := join d (q :: ps)) in *. clearbody rest.
    induction Hp as [|c p Hc Hp IHp]; simpl.
    + rewrite bool_decide_eq_true_2 by done. by rewrite IH.
    + rewrite bool_decide_eq_false_2 by done. by rewrite IHp.
Qed.

Lemma join_Forall (P : ascii -> Prop) (d : ascii) (ps : list str) :
  P d -> Forall (Forall P) ps -> Forall P (join d ps).
Proof.
  intros Hd. induction 1 as [|p ps Hp Hps IH]; simpl; [done|].
  destruct ps as [|q ps]; [done|]. apply Forall_app. split; [done|]. by constructor.
Qed.

End PyStrFacts.

(** ** Asset names *)

Module NamingFacts.
Import PyStr PyStrFacts AssetLoader.

(** the name without its class qualifier *)
Definition stem (name : str) : str :=
  if contains dot name then before dot name else name.

(** Nothing is left for a further strip: the string does not begin with a
    slash and ends neither with a slash nor with white space. *)
Definition settled (t : str) : bool :=
  match head t, last t with
  | Some c, Some e => negb (is_char slash c) && negb (is_char slash e) && negb (isspace e)
  | _, _ => true
  end.

(** A registered mod name that reads as one path segment and not as an id. *)
Definition plain_mod_name (n : str) : bool :=
  forallb (fun c => negb (is_char dot c) && negb (is_char slash c)
                    && negb (is_char backslash c)) n
  && negb (isnumeric n)
  && match last n with Some e => negb (isspace e) | None => true end.

Definition is_mod_id (ps : list str) : bool :=
  match ps with
  | _ :: p1 :: p2 :: _ => PyStr.eqb (lower p1) (lit "mods") && isnumeric p2
  | _ => false
  end.

(** the first and the last character of [join slash ps], read off the parts *)
Definition first_char (ps : list str) : option ascii :=
  match ps with
  | [] => None
  | (c :: _) :: _ => Some c
  | [] :: [] => None
  | [] :: _ :: _ => Some slash
  end.

Fixpoint last_char (ps : list str) : option ascii :=
  match ps with
  | [] => None
  | [p] => last p
  | p :: ps' => match last_char ps' with Some e => Some e | None => Some slash end
  end.

Lemma head_join (ps : list str) : head (join slash ps) = first_char ps.
Proof. by destruct ps as [|[|c p] [|q ps]]. Qed.

Lemma last_join (ps : list str) : last (join slash ps) = last_char ps.
Proof.
  induction ps as [|p [|q ps] IH]; [done..|].
  change (join slash (p :: q :: ps)) with (p ++ slash :: join slash (q :: ps)).
  rewrite last_app, last_cons, IH.
  change (last_char (p :: q :: ps))
    with (match last_char (q :: ps) with Some e => Some e | None => Some slash end).
  by destruct (last_char (q :: ps)).
Qed.

Lemma settled_join (ps : list str) :
  settled (join slash ps) =
    match first_char ps, last_char ps with
    | Some c, Some e => negb (is_char slash c) && negb (is_char slash e) && negb (isspace e)
    | _, _ => true
    end.
Proof. unfold settled. by rewrite head_join, last_join. Qed.

Lemma settled_head (t : str) c :
  settled t = true -> head t = Some c -> is_char slash c = false.
Proof.
  unfold settled. intros Hs Hc. rewrite Hc in Hs.
  destruct (last t) as [e|] eqn:He.
  - apply andb_true_iff in Hs as [Hs _]. apply andb_true_iff in Hs as [Hs _].
    by apply negb_true_iff.
  - apply last_None in He. by subst t.
Qed.

Lemma settled_last (t : str) e :
  settled t = true -> last t = Some e -> is_char slash e = false /\ isspace e = false.
Proof.
  unfold settled. intros Hs He. rewrite He in Hs.
  destruct (head t) as [c|] eqn:Hc.
  - apply andb_true_iff in Hs as [Hs Hsp]. apply andb_true_iff in Hs as [_ Hs].
    split; by apply negb_true_iff.
  - apply head_None in Hc. by subst t.
Qed.

Definition segment_char (c : ascii) : Prop := c <> dot /\ c <> backslash /\ c <> slash.

(** parts that [clean_asset_name] reads back as they are *)
Record canonical (ps : list str) : Prop := {
  canonical_nonempty : ps <> [];
  canonical_chars : Forall (Forall segment_char) ps;
  canonical_settled : settled (join slash ps) = true;
}.

Lemma stem_no_dot (x : str) : Forall (fun c => c <> dot) (stem x).
Proof.
  unfold stem. destruct (contains dot x) eqn:Hdot; [apply before_Forall|].
  by apply contains_false.
Qed.

Lemma trimmed_chars (s : str) :
  Forall (fun c => c <> dot) s ->
  Forall (fun c => c <> dot /\ c <> backslash) (trimmed s).
Proof.
  intros Hs. unfold trimmed. apply Forall_and. split.
  - apply replace_Forall; [done|]. by do 3 apply strip_Forall.
  - by apply replace_gone.
Qed.

Lemma split_trimmed_canonical (x : str) :
  settled (trimmed (stem x)) = true -> canonical (split slash (trimmed (stem x))).
Proof.
  intros Hs. split.
  - apply split_nonempty.
  - eapply Forall_impl; [apply split_Forall, trimmed_chars, stem_no_dot|].
    intros p Hp. eapply Forall_impl; [exact Hp|]. by intros c [[? ?] ?].
  - by rewrite join_split.
Qed.

Section Idempotence.
Context {modresolver : ModResolver}.

(** the mod name that [clean_asset_name] puts in the place of a numeric id *)
Definition substituted (ps : list str) : option str :=
  match ps with
  | _ :: _ :: p2 :: _ => if is_mod_id ps then get_name_from_id p2 else None
  | _ => None
  end.

(** The names on which a second cleaning finds nothing to do: the strips
    have left a settled string, and the mod name written for an id, if any,
    is a plain one. *)
Definition regular (x : str) : bool :=
  let t := trimmed (stem x) in
  settled t &&
  match substituted (split slash t) with
  | Some n => plain_mod_name n
  | None => true
  end.

Lemma clean_unfold (x : str) :
  clean_asset_name x =
    match mod_ids_to_names (split slash (trimmed (stem x))) with
    | Raise e => Raise e
    | Ok ps => Ok (slash :: join slash (content_to_game ps))
    end.
Proof. reflexivity. Qed.

Lemma joined_chars (ps : list str) :
  Forall (Forall segment_char) ps ->
  Forall (fun c => c <> dot /\ c <> backslash) (join slash ps).
Proof.
  intros Hch. apply join_Forall; [done|].
  eapply Forall_impl; [exact Hch|]. intros p Hp.
  eapply Forall_impl; [exact Hp|]. by intros c (? & ? & ?).
Qed.

(** the strips and the replacement find nothing to do on a canonical name *)
Lemma trimmed_canonical (ps : list str) :
  canonical ps -> trimmed (slash :: join slash ps) = join slash ps.
Proof.
  intros [Hne Hch Hs]. pose proof (joined_chars ps Hch) as Hj.
  set (j := join slash ps) in *. unfold trimmed.
  assert (Hspace : strip isspace (slash :: j) = slash :: j).
  { apply strip_noop.
    - by intros c [= <-].
    - intros e. rewrite last_cons. destruct (last j) as [e'|] eqn:He.
      + intros [= <-]. by apply (settled_last j e').
      + by intros [= <-]. }
  assert (Hslash : strip (is_char slash) (slash :: j) = j).
  { unfold strip. simpl.
    rewrite lstrip_noop by (intros c; by apply settled_head).
    apply rstrip_noop. intros e He. by apply (settled_last j e). }
  assert (Hback : strip (is_char backslash) j = j).
  { apply strip_noop; intros c Hc; unfold is_char; apply bool_decide_eq_false_2.
    - apply head_Some_elem_of in Hc. by apply (proj1 (Forall_forall _ _) Hj c).
    - apply last_Some_elem_of in Hc. by apply (proj1 (Forall_forall _ _) Hj c). }
  rewrite Hspace, Hslash, Hback. apply replace_noop.
  eapply Forall_impl; [exact Hj|]. by intros c [? ?].
Qed.

(** a canonical name on which neither rewriting step acts is a fixed point *)
Lemma fixed_point (ps : list str) :
  canonical ps ->
  mod_ids_to_names ps = Ok ps ->
  content_to_game ps = ps ->
  clean_asset_name (slash :: join slash ps) = Ok (slash :: join slash ps).
Proof.
  intros Hcan Hmod Hcontent. rewrite clean_unfold.
  assert (Hstem : stem (slash :: join slash ps) = slash :: join slash ps).
  { unfold stem. replace (contains dot (slash :: join slash ps)) with false; [done|].
    symmetry. apply contains_false. constructor; [done|].
    eapply Forall_impl; [apply joined_chars, Hcan|]. by intros c [? ?]. }
  rewrite Hstem, trimmed_canonical by done.
  rewrite split_join.
  - by rewrite Hmod, Hcontent.
  - apply Hcan.
  - eapply Forall_impl; [apply Hcan|]. intros p Hp.
    eapply Forall_impl; [exact Hp|]. by intros c (? & ? & ?).
Qed.

Lemma plain_mod_name_spec (n : str) :
  plain_mod_name n = true ->
  Forall segment_char n /\ isnumeric n = false /\
  (forall e, last n = Some e -> isspace e = false).
Proof.
  unfold plain_mod_name. rewrite !andb_true_iff. intros [[Hch Hnum] Hlast].
  split; [|split].
  - apply Forall_forall. intros c Hc. apply list_elem_of_In in Hc.
    apply (proj1 (forallb_forall _ _) Hch) in Hc.
    rewrite !andb_true_iff, !negb_true_iff in Hc. destruct Hc as [[Hd Hs] Hb].
    unfold is_char in *. apply bool_decide_eq_false in Hd, Hs, Hb. done.
  - by apply negb_true_iff.
  - intros e He. rewrite He in Hlast. by apply negb_true_iff.
Qed.

(** the id-to-name step keeps canonical parts canonical, and finds no id
    to rewrite in its own result *)
Lemma mod_step (ps ps' : list str) :
  canonical ps ->
  match substituted ps with Some n => plain_mod_name n = true | None => True end ->
  mod_ids_to_names ps = Ok ps' ->
  canonical ps' /\ mod_ids_to_names ps' = Ok ps'.
Proof.
  intros Hcan Hplain Hmod.
  destruct ps as [|p0 [|p1 [|p2 rest]]]; try (injection Hmod as <-; done).
  unfold mod_ids_to_names in Hmod. unfold substituted, is_mod_id in Hplain.
  destruct (PyStr.eqb (lower p1) (lit "mods") && isnumeric p2) eqn:Hid;
    [|injection Hmod as <-; split; [done|]; unfold mod_ids_to_names; by rewrite Hid].
  destruct (get_name_from_id p2) as [[|c n]|]; try done. injection Hmod as <-.
  apply plain_mod_name_spec in Hplain as (Hch & Hnum & Hlast).
  destruct Hcan as [_ Hchars Hset].
  apply Forall_cons in Hchars as [Hp0 Hchars]. apply Forall_cons in Hchars as [Hp1 Hchars].
  apply Forall_cons in Hchars as [_ Hrest].
  split.
  - split; [done | by do 3 (apply Forall_cons; split; [done|]) |].
    rewrite settled_join in *.
    change (first_char (p0 :: p1 :: (c :: n) :: rest)) with (first_char (p0 :: p1 :: p2 :: rest)).
    destruct (first_char (p0 :: p1 :: p2 :: rest)) as [c0|]; [|done].
    destruct rest as [|r rest].
    + cbn [last_char] in *. destruct (last (c :: n)) as [e|] eqn:He.
      * destruct (last p2); rewrite !andb_true_iff in Hset; destruct Hset as [[Hc0 _] _];
          rewrite Hc0, (Hlast e eq_refl); simpl; rewrite andb_true_r;
          apply negb_true_iff, bool_decide_eq_false_2;
          apply last_Some_elem_of in He;
          by apply (proj1 (Forall_forall _ _) Hch e).
      * by apply last_None in He.
    + exact Hset.
  - unfold mod_ids_to_names. rewrite Hnum. by rewrite andb_false_r.
Qed.

(** the Content-to-Game step keeps canonical parts canonical, and neither
    step acts on its result *)
Lemma content_step (ps : list str) :
  canonical ps ->
  mod_ids_to_names ps = Ok ps ->
  canonical (content_to_game ps) /\
  mod_ids_to_names (content_to_game ps) = Ok (content_to_game ps) /\
  content_to_game (content_to_game ps) = content_to_game ps.
Proof.
  intros Hcan Hmod. destruct ps as [|p0 rest]; [by destruct Hcan|].
  assert (Hq : content_to_game (p0 :: rest) =
                 if PyStr.eqb (lower p0) (lit "content") then lit "Game" :: rest
                 else p0 :: rest) by reflexivity.
  rewrite Hq. clear Hq.
  destruct (PyStr.eqb (lower p0) (lit "content")) eqn:Hcontent.
  - split; [|split].
    + destruct Hcan as [_ Hchars Hset]. apply Forall_cons in Hchars as [_ Hrest].
      split; [done | | ].
      * constructor; [|done]. by repeat constructor.
      * rewrite settled_join in *. destruct rest as [|r rest]; [done|].
        change (last_char (lit "Game" :: r :: rest)) with (last_char (p0 :: r :: rest)).
        change (first_char (lit "Game" :: r :: rest)) with (Some "G"%char).
        assert (Hfirst : exists c0, first_char (p0 :: r :: rest) = Some c0)
          by (destruct p0; eexists; reflexivity).
        destruct Hfirst as [c0 Hfirst]. rewrite Hfirst in Hset.
        destruct (last_char (p0 :: r :: rest)) as [e|]; [|done].
        rewrite !andb_true_iff in Hset. destruct Hset as [[_ He] Hsp].
        by rewrite He, Hsp.
    + destruct rest as [|p1 [|p2 rest]]; try done.
      unfold mod_ids_to_names in *.
      destruct (PyStr.eqb (lower p1) (lit "mods") && isnumeric p2); [|done].
      destruct (get_name_from_id p2) as [[|c n]|]; try done. by injection Hmod as <-.
    + done.
  - split; [done|]. split; [done|]. unfold content_to_game. by rewrite Hcontent.
Qed.

(** Where the strips leave nothing uncovered, a second cleaning changes
    nothing: on a regular name, [clean_asset_name] applied to its own
    result returns that result. The class qualifier, the case of the
    segments, inner backslashes and the mod id or mod name of the input are
    free. *)
Lemma clean_asset_name_idempotent (x y : str) :
  regular x = true ->
  clean_asset_name x = Ok y ->
  clean_asset_name y = Ok y.
Proof.
  unfold regular. cbv zeta. rewrite andb_true_iff. intros [Hset Hplain].
  rewrite clean_unfold.
  destruct (mod_ids_to_names (split slash (trimmed (stem x)))) as [ps'|e] eqn:Hmod; [|done].
  intros [= <-].
  pose proof (split_trimmed_canonical x Hset) as Hcan.
  destruct (mod_step _ ps' Hcan) as [Hcan' Hmod']; [|done|].
  { by destruct (substituted _). }
  destruct (content_step ps' Hcan' Hmod') as (Hcan'' & Hmod'' & Hcontent).
  by apply fixed_point.
Qed.

End Idempotence.

(** one registered mod *)
Definition one_mod : ModResolver := IniModResolver [(lit "123", lit "MyMod")].

Lemma clean_asset_name_idempotent_witness :
  regular (modresolver := one_mod) (lit " \Content\mods\123\Dinos\Dodo.Dodo_C ") = true /\
  clean_asset_name (modresolver := one_mod) (lit "/Game/mods/MyMod/Dinos/Dodo")
    = Ok (lit "/Game/mods/MyMod/Dinos/Dodo").
Proof.
  split; [reflexivity|].
  apply (clean_asset_name_idempotent (modresolver := one_mod)
           (lit " \Content\mods\123\Dinos\Dodo.Dodo_C ")); reflexivity.
Defined.

(** C3, where the code breaks it. The three strips run once each, in the
    order whitespace, [/], [\]: a backslash in front of a slash shields the
    slash from [strip('/')], and [strip('\\')] then uncovers it with no strip
    left to take it. So [\/a] cleans to [//a], and [//a], cleaned again, to
    [/a]: a name that [clean_asset_name] returned is not a name it keeps,
    and the one asset is known under two names. *)
Theorem clean_asset_name_second_pass_differs :
  clean_asset_name (modresolver := IniModResolver []) (lit "\/a") = Ok (lit "//a") /\
  clean_asset_name (modresolver := IniModResolver []) (lit "//a") = Ok (lit "/a") /\
  ~ (forall (modresolver : ModResolver) (x y : str),
       clean_asset_name x = Ok y -> clean_asset_name y = Ok y).
Proof.
  split; [reflexivity|]. split; [reflexivity|].
  intros Hidem.
  specialize (Hidem (IniModResolver []) (lit "\/a") (lit "//a") eq_refl).
  discriminate Hidem.
Qed.

End NamingFacts.

(** * Further properties *)

(** ** More on dictionaries *)

Section PyDictMore.
Context {K V : Type} `{EqDecision K}.
Implicit Types (d : pydict K V) (k : K) (v : V).

Lemma dict_get_snoc k v d : k ∉ keys d -> dict_get k (d ++ [(k, v)]) = Some v.
Proof.
  unfold keys. induction d as [|[k' v'] d IH]; simpl.
  - intros _. by destruct (decide (k = k)).
  - rewrite not_elem_of_cons. intros [Hne Hd]. destruct (decide (k' = k)); [congruence|].
    by apply IH.
Qed.

Lemma dict_get_snoc_ne k k' v d : k <> k' -> dict_get k' (d ++ [(k, v)]) = dict_get k' d.
Proof.
  intros Hne. induction d as [|[k0 v0] d IH]; simpl.
  - by destruct (decide (k = k')).
  - by destruct (decide (k0 = k')).
Qed.

Lemma dict_get_remove_ne k k' d : k <> k' -> dict_get k' (dict_remove k d) = dict_get k' d.
Proof.
  intros Hne. induction d as [|[k0 v0] d IH]; simpl; [done|].
  destruct (decide (k0 = k)) as [->|Hk0]; simpl.
  - by destruct (decide (k = k')).
  - destruct (decide (k0 = k')); [done|]. apply IH.
Qed.

Lemma dict_get_set k v d : dict_get k (dict_set k v d) = Some v.
Proof.
  induction d as [|[k0 v0] d IH]; simpl.
  - by destruct (decide (k = k)).
  - destruct (decide (k0 = k)) as [->|Hne]; simpl.
    + by destruct (decide (k = k)).
    + by destruct (decide (k0 = k)).
Qed.

Lemma dict_get_set_ne k k' v d : k <> k' -> dict_get k' (dict_set k v d) = dict_get k' d.
Proof.
  intros Hne. induction d as [|[k0 v0] d IH]; simpl.
  - by destruct (decide (k = k')).
  - destruct (decide (k0 = k)) as [->|Hk0]; simpl.
    + by destruct (decide (k = k')).
    + destruct (decide (k0 = k')); [done|]. apply IH.
Qed.

Lemma keys_dict_set k v d : k ∈ keys d -> keys (dict_set k v d) = keys d.
Proof.
  unfold keys. induction d as [|[k0 v0] d IH]; simpl.
  - by intros ?%elem_of_nil.
  - intros Hin. destruct (decide (k0 = k)) as [->|Hne]; simpl; [done|].
    apply elem_of_cons in Hin as [?|Hin]; [congruence|]. by rewrite IH.
Qed.

(** in a dictionary, removing a key removes the one entry that has it *)
Lemma dict_remove_filter k d :
  wf_dict d -> dict_remove k d = List.filter (fun kv => bool_decide (fst kv <> k)) d.
Proof.
  unfold wf_dict, keys. induction d as [|[k0 v0] d IH]; simpl; [done|].
  rewrite NoDup_cons. intros [Hk0 Hd].
  destruct (decide (k0 = k)) as [->|Hne].
  - rewrite bool_decide_eq_false_2 by (intros ?; done).
    symmetry. apply forallb_filter_id. apply forallb_forall. intros [k1 v1] Hin.
    apply bool_decide_eq_true_2. simpl. intros ->. apply Hk0.
    apply list_elem_of_In. apply (in_map fst) in Hin. exact Hin.
  - rewrite bool_decide_eq_true_2 by done. by rewrite IH.
Qed.


End PyDictMore.

(** ** More on the usage-ordered cache *)

Module CacheMore.
Import UsageBasedCacheManager CacheFacts.

Lemma lookup_moves_to_end_eq (name : str) (w : World) :
  wf_dict (cache (manager w)) ->
  lookup name w =
    (Ok (dict_get name (cache (manager w))),
     match dict_get name (cache (manager w)) with
     | Some asset => set_cache (dict_remove name (cache (manager w)) ++ [(name, asset)]) w
     | None => w
     end).
Proof.
  intros Hwf. unfold lookup, bind at 1, get at 1, dict_pop.
  destruct (dict_get name (cache (manager w))) as [asset|] eqn:Hget.
  - unfold bind, modify, ret.
    by rewrite dict_set_absent by (by apply dict_remove_not_in).
  - unfold bind, modify, ret.
    rewrite dict_remove_absent by (by apply dict_get_None). by rewrite set_cache_same.
Qed.

(** X1. A lookup returns what the dictionary holds under the name; a hit
    moves the entry to the most recently used end and changes nothing else,
    a miss changes nothing at all. *)
Theorem lookup_moves_to_end (name : str) (w : World) :
  wf_dict (cache (manager w)) ->
  lookup name w =
    (Ok (dict_get name (cache (manager w))),
     match dict_get name (cache (manager w)) with
     | Some asset => set_cache (dict_remove name (cache (manager w)) ++ [(name, asset)]) w
     | None => w
     end).
Proof. apply lookup_moves_to_end_eq. Qed.

Definition asset_named (n : string) : UAsset.t :=
  UAsset.mk (lit n) [] (lit ".uasset") [] None None FullParse.

(** [/Game/A], the older entry, and [/Game/B], the newer one *)
Definition two_entry_world : World :=
  mkWorld (mkCache [(lit "/Game/A", asset_named "/Game/A");
                    (lit "/Game/B", asset_named "/Game/B")] 3000 0 500 0)
          [] 0 FullParse 0.

Lemma lookup_moves_to_end_witness :
  wf_dict (cache (manager two_entry_world)) /\
  lookup (lit "/Game/A") two_entry_world =
    (Ok (Some (asset_named "/Game/A")),
     set_cache [(lit "/Game/B", asset_named "/Game/B");
                (lit "/Game/A", asset_named "/Game/A")] two_entry_world).
Proof.
  assert (Hwf : wf_dict (cache (manager two_entry_world))).
  { unfold wf_dict. simpl. apply NoDup_cons. split.
    - rewrite list_elem_of_singleton. discriminate.
    - apply NoDup_singleton. }
  split; [exact Hwf|].
  exact (lookup_moves_to_end (lit "/Game/A") two_entry_world Hwf).
Defined.

Lemma skipn_snoc {A} (n : nat) (l : list A) (x : A) :
  (n <= length l)%nat -> skipn n (l ++ [x]) = skipn n l ++ [x].
Proof.
  intros Hn. rewrite skipn_app. replace (n - length l)%nat with 0%nat by lia. done.
Qed.

Lemma keys_skipn_subseteq {K V} (n : nat) (d : pydict K V) : keys (skipn n d) ⊆ keys d.
Proof.
  unfold keys. intros k Hk. rewrite <- (firstn_skipn n d), map_app.
  apply elem_of_app. by right.
Qed.


(** a cache of at most two entries that keeps one, holding [/Game/A] *)
Definition small_world : World :=
  mkWorld (mkCache [(lit "/Game/A", asset_named "/Game/A")] 2 0 1 0) [] 0 FullParse 0.

Lemma small_world_wf : wf_dict (cache (manager small_world)).
Proof. unfold wf_dict. simpl. apply NoDup_singleton. Qed.


(** after an [add] that keeps at least one entry, the new entry is the last
    one and its name occurs nowhere else *)
Lemma add_shape (name : str) (asset : UAsset.t) (w : World) :
  wf_dict (cache (manager w)) ->
  (1 <= keep_count (manager w) < max_count (manager w))%Z ->
  exists w1 kept,
    add name asset w = (Ok tt, w1) /\
    cache (manager w1) = kept ++ [(name, asset)] /\
    (name ∉ keys kept) /\
    wf_dict (cache (manager w1)) /\
    max_count (manager w1) = max_count (manager w) /\
    keep_count (manager w1) = keep_count (manager w).
Proof.
  intros Hwf HK.
  destruct (add_run name asset w Hwf) as (w1 & Hrun & Hm & Hk & Hwf1 & Hc); [lia|].
  cbv zeta in Hc. rewrite inserted_snoc in Hc by done.
  set (r := dict_remove name (cache (manager w))) in *.
  pose proof (dict_remove_not_in name _ Hwf) as Hnot. fold r in Hnot.
  exists w1. destruct (_ <=? _)%Z eqn:Hfull.
  - rewrite length_app in Hc. simpl in Hc. rewrite skipn_snoc in Hc by lia.
    eexists. split; [done|]. split; [exact Hc|]. split; [|done].
    intros Hin. apply Hnot. exact (keys_skipn_subseteq _ r _ Hin).
  - by exists r.
Qed.

Lemma dict_remove_snoc {K V} `{EqDecision K} (k : K) (v : V) (d : pydict K V) :
  k ∉ keys d -> dict_remove k (d ++ [(k, v)]) = d.
Proof.
  unfold keys. induction d as [|[k0 v0] d IH]; simpl.
  - intros _. by destruct (decide (k = k)).
  - rewrite not_elem_of_cons. intros [Hne Hd].
    destruct (decide (k0 = k)); [congruence|]. by rewrite IH.
Qed.

(** X3. With [keep_count] at least one, the entry just added is in the
    cache, at the most recently used end, and the next lookup of its name
    returns it, whether or not the [add] evicted anything. *)
Theorem add_then_lookup (name : str) (asset : UAsset.t) (w : World) :
  wf_dict (cache (manager w)) ->
  (1 <= keep_count (manager w) < max_count (manager w))%Z ->
  exists w1 w2,
    add name asset w = (Ok tt, w1) /\
    last (cache (manager w1)) = Some (name, asset) /\
    lookup name w1 = (Ok (Some asset), w2) /\
    cache (manager w2) = cache (manager w1).
Proof.
  intros Hwf HK.
  destruct (add_shape name asset w Hwf HK) as (w1 & kept & Hrun & Hkept & Hnot & Hwf1 & _).
  assert (Hget : dict_get name (cache (manager w1)) = Some asset)
    by (rewrite Hkept; by apply dict_get_snoc).
  exists w1. eexists. split; [done|]. split; [by rewrite Hkept, last_snoc|].
  rewrite lookup_moves_to_end_eq by done. rewrite Hget. split; [reflexivity|].
  simpl. rewrite Hkept. by rewrite dict_remove_snoc.
Qed.

Lemma add_then_lookup_witness :
  exists w1 w2,
    add (lit "/Game/B") (asset_named "/Game/B") small_world = (Ok tt, w1) /\
    last (cache (manager w1)) = Some (lit "/Game/B", asset_named "/Game/B") /\
    lookup (lit "/Game/B") w1 = (Ok (Some (asset_named "/Game/B")), w2) /\
    cache (manager w2) = cache (manager w1).
Proof.
  apply (add_then_lookup (lit "/Game/B") (asset_named "/Game/B") small_world).
  - exact small_world_wf.
  - simpl. lia.
Defined.

Lemma add_to_maybe_purge name asset w :
  add name asset w = _maybe_purge (set_cache (inserted name asset w) w).
Proof. reflexivity. Qed.

(** the world as [_maybe_purge] leaves it when it purges nothing *)
Definition sampled (w : World) : World :=
  if (highest_memory_seen (manager w) <? rss w)%Z
  then set_highest_memory_seen (rss w) w else w.

Lemma maybe_purge_unfold w :
  _maybe_purge w =
    if (max_count (manager w) <=? Z.of_nat (length (cache (manager w))))%Z
    then _purge (Z.of_nat (length (cache (manager w))) - keep_count (manager w))
           (add_log (mkLog DEBUG "Asset cache purge due to too many items" []) (sampled w))
    else (Ok tt, sampled w).
Proof.
  unfold _maybe_purge, sampled, bind, get, log. cbv zeta.
  destruct (highest_memory_seen (manager w) <? rss w)%Z; simpl;
    by destruct (_ <=? _)%Z.
Qed.

(** X4. With [keep_count] zero, an [add] that fills the cache purges
    everything, the entry just added included: the cache is empty
    afterwards. *)
Theorem add_with_keep_zero_empties (name : str) (asset : UAsset.t) (w : World) :
  wf_dict (cache (manager w)) ->
  keep_count (manager w) = 0%Z ->
  triggers_purge name asset w ->
  exists w', add name asset w = (Ok tt, w') /\ cache (manager w') = [] /\
             dict_get name (cache (manager w')) = None.
Proof.
  intros Hwf HK Htrig. unfold triggers_purge in Htrig.
  rewrite add_to_maybe_purge, maybe_purge_unfold. simpl.
  rewrite (proj2 (Z.leb_le _ _) Htrig).
  set (w1 := add_log _ _).
  assert (Hc1 : cache (manager w1) = inserted name asset w
                /\ keep_count (manager w1) = keep_count (manager w)).
  { subst w1. unfold sampled. by destruct (_ <? _)%Z. }
  destruct Hc1 as [Hc1 Hk1].
  replace (Z.of_nat (length (inserted name asset w)) - keep_count (manager w))%Z
    with (Z.of_nat (length (cache (manager w1)))) by (rewrite Hc1; lia).
  rewrite purge_exact; [| rewrite Hc1; by apply inserted_wf | lia].
  eexists. split; [reflexivity|]. simpl. rewrite Nat2Z.id, skipn_all. done.
Qed.

Definition keep_none_world : World :=
  mkWorld (mkCache [] 1 0 0 0) [] 0 FullParse 0.

Lemma add_with_keep_zero_empties_witness :
  exists w', add (lit "/Game/A") (asset_named "/Game/A") keep_none_world = (Ok tt, w') /\
             cache (manager w') = [] /\
             dict_get (lit "/Game/A") (cache (manager w')) = None.
Proof.
  apply (add_with_keep_zero_empties (lit "/Game/A") (asset_named "/Game/A") keep_none_world).
  - constructor.
  - reflexivity.
  - unfold triggers_purge. simpl. lia.
Defined.

Lemma purge_negative (amount : Z) w :
  (amount < 0)%Z -> _purge amount w = (Raise ValueError, w).
Proof.
  intros Hneg. unfold _purge, bind, get. by rewrite (proj2 (Z.ltb_lt _ _) Hneg).
Qed.

(** X5. When [keep_count] exceeds the number of entries at the moment the
    cache is full ([keep_count] above [max_count]), the purge asks [islice]
    for a negative number of names: the [add] raises [ValueError], with the
    new entry already stored and nothing evicted. *)
Theorem add_with_keep_above_count_raises (name : str) (asset : UAsset.t) (w : World) :
  triggers_purge name asset w ->
  (Z.of_nat (length (inserted name asset w)) < keep_count (manager w))%Z ->
  exists w', add name asset w = (Raise ValueError, w') /\
             cache (manager w') = inserted name asset w.
Proof.
  intros Htrig Hkeep. unfold triggers_purge in Htrig.
  rewrite add_to_maybe_purge, maybe_purge_unfold. simpl.
  rewrite (proj2 (Z.leb_le _ _) Htrig).
  rewrite purge_negative by lia.
  eexists. split; [reflexivity|]. simpl. unfold sampled. by destruct (_ <? _)%Z.
Qed.

Definition keep_too_many_world : World :=
  mkWorld (mkCache [] 1 0 5 0) [] 0 FullParse 0.

Lemma add_with_keep_above_count_raises_witness :
  exists w', add (lit "/Game/A") (asset_named "/Game/A") keep_too_many_world
               = (Raise ValueError, w') /\
             cache (manager w') = [(lit "/Game/A", asset_named "/Game/A")].
Proof.
  apply (add_with_keep_above_count_raises (lit "/Game/A") (asset_named "/Game/A")
           keep_too_many_world).
  - unfold triggers_purge. simpl. lia.
  - simpl. lia.
Defined.



Lemma filter_twice {A} (f g : A -> bool) (l : list A) :
  List.filter f (List.filter g l) = List.filter (fun x => g x && f x) l.
Proof.
  induction l as [|x l IH]; [done|]. simpl.
  destruct (g x); simpl; [destruct (f x)|]; by rewrite IH.
Qed.

Lemma filter_bool_prop {A} (f : A -> bool) (l : list A) :
  List.filter f l = filter (fun x => f x = true) l.
Proof.
  induction l as [|x l IH]; [done|]. cbn [List.filter]. rewrite filter_cons, IH.
  destruct (f x); [by rewrite decide_True | by rewrite decide_False].
Qed.

(** The loop [for name in to_cull: del self.cache[name]], for a state that
    holds the dictionary behind [getc] and [setc]: when the names are keys of
    the dictionary, each named once, every [del] succeeds and the entries
    left are those with other keys, in their order. *)
Section DelLoop.
Context {St : Type} (getc : St -> pydict str UAsset.t)
        (setc : pydict str UAsset.t -> St -> St).
Hypothesis getc_setc : forall c s, getc (setc c s) = c.
Hypothesis setc_setc : forall c c' s, setc c (setc c' s) = setc c s.
Hypothesis setc_getc : forall s, setc (getc s) s = s.

Definition del_body (name : str) : M St unit :=
  s <- get ;;
  c <- lift (dict_del name (getc s)) ;;
  modify (setc c).

Lemma del_loop (names : list str) (s : St) :
  wf_dict (getc s) ->
  NoDup names ->
  (forall n, n ∈ names -> n ∈ keys (getc s)) ->
  for_each names del_body s =
    (Ok tt, setc (List.filter (fun kv => bool_decide (fst kv ∉ names)) (getc s)) s).
Proof using getc_setc setc_setc setc_getc.
  revert s. induction names as [|n names IH]; intros s Hwf Hnd Hin.
  - simpl. unfold ret. f_equal. rewrite <- (setc_getc s) at 1. f_equal.
    symmetry. apply forallb_filter_id, forallb_forall. by intros kv _.
  - apply NoDup_cons in Hnd as [Hn Hnd].
    rewrite for_each_cons. unfold bind at 1, del_body at 1, bind at 1, get at 1.
    unfold bind at 1, lift, dict_del.
    destruct (dict_get n (getc s)) as [v|] eqn:Hget.
    2:{ apply dict_get_None in Hget. exfalso. apply Hget, Hin. by left. }
    unfold modify. rewrite IH.
    + rewrite getc_setc, setc_setc. do 2 f_equal.
      rewrite dict_remove_filter by done.
      rewrite filter_twice. apply filter_ext. intros [k v']. simpl.
      apply eq_true_iff_eq. rewrite andb_true_iff, !bool_decide_eq_true, not_elem_of_cons.
      tauto.
    + rewrite getc_setc. by apply wf_dict_remove.
    + done.
    + intros m Hm. rewrite getc_setc. rewrite dict_remove_filter by done.
      pose proof (Hin m ltac:(by right)) as Hk. unfold keys in *.
      apply list_elem_of_fmap in Hk as ([k v'] & -> & Hkv). simpl in *.
      apply list_elem_of_fmap. exists (k, v'). split; [done|].
      apply list_elem_of_In, filter_In. split; [by apply list_elem_of_In|].
      apply bool_decide_eq_true_2. simpl. intros ->. done.
Qed.

(** culling the keys that [keep] rejects leaves the entries it accepts *)
Lemma del_loop_filter (keep : str -> bool) (s : St) :
  wf_dict (getc s) ->
  for_each (List.filter (fun key => negb (keep key)) (keys (getc s))) del_body s =
    (Ok tt, setc (List.filter (fun kv => keep (fst kv)) (getc s)) s).
Proof using getc_setc setc_setc setc_getc.
  intros Hwf. rewrite del_loop.
  - do 2 f_equal. apply filter_ext_in. intros [k v] Hin. simpl.
    apply eq_true_iff_eq. rewrite bool_decide_eq_true.
    rewrite list_elem_of_In, filter_In, negb_true_iff.
    split.
    + intros Hnot. destruct (keep k) eqn:Hk; [done|]. exfalso. apply Hnot.
      split; [|done]. apply (in_map fst) in Hin. exact Hin.
    + intros Hk [_ Hk']. congruence.
  - done.
  - apply NoDup_ListNoDup, List.NoDup_filter, NoDup_ListNoDup, Hwf.
  - intros n Hn. apply list_elem_of_In, filter_In in Hn as [Hn _].
    by apply list_elem_of_In.
Qed.

End DelLoop.

(** X7. [wipe(prefix)] never fails on a cache: it leaves the entries
    whose names do not start with the prefix, in their order, and no other;
    with the empty prefix that is the empty cache. *)
Theorem wipe_removes_prefixed (prefix : str) (w : World) :
  wf_dict (cache (manager w)) ->
  exists w',
    wipe prefix w = (Ok tt, w') /\
    cache (manager w') =
      List.filter (fun kv => negb (PyStr.startswith prefix (fst kv))) (cache (manager w)).
Proof.
  intros Hwf. destruct prefix as [|c prefix].
  - eexists. split; [reflexivity|]. simpl.
    symmetry. induction (cache (manager w)) as [|kv d IH]; [done|]. simpl. apply IH.
    unfold wf_dict, keys in *. simpl in Hwf. by apply NoDup_cons in Hwf as [_ ?].
  - unfold wipe, bind at 1, log, modify at 1. unfold bind at 1, get at 1.
    set (w1 := add_log _ w).
    replace (filter (fun key => PyStr.startswith (c :: prefix) key = true) (keys (cache (manager w1))))
      with (List.filter (fun key => negb (negb (PyStr.startswith (c :: prefix) key)))
              (keys (cache (manager w1)))).
    + pose proof (del_loop_filter (fun w => cache (manager w)) set_cache
                    (fun _ _ => eq_refl) (fun _ _ _ => eq_refl) set_cache_same
                    (fun key => negb (PyStr.startswith (c :: prefix) key)) w1 Hwf) as Hloop.
      unfold del_body in Hloop. rewrite Hloop. eexists. split; reflexivity.
    + rewrite <- filter_bool_prop. apply filter_ext. intros k. apply negb_involutive.
Qed.

(** two mods' assets in the cache *)
Definition two_mods_world : World :=
  mkWorld (mkCache [(lit "/Game/Mods/A/X", asset_named "/Game/Mods/A/X");
                    (lit "/Game/Mods/B/Y", asset_named "/Game/Mods/B/Y")] 3000 0 500 0)
          [] 0 FullParse 0.

Lemma wipe_removes_prefixed_witness :
  exists w',
    wipe (lit "/Game/Mods/A") two_mods_world = (Ok tt, w') /\
    cache (manager w') = [(lit "/Game/Mods/B/Y", asset_named "/Game/Mods/B/Y")].
Proof.
  apply (wipe_removes_prefixed (lit "/Game/Mods/A") two_mods_world).
  unfold wf_dict. simpl. apply NoDup_cons. split.
  - rewrite list_elem_of_singleton. discriminate.
  - apply NoDup_singleton.
Defined.

End CacheMore.

(** ** The plain manager *)

Module DictManagerFacts.
Import DictCacheManager.



(** X9. The plain manager's [wipe(prefix)] never fails: it leaves the
    entries whose names do not start with the prefix, and no other. *)
Theorem plain_wipe (prefix : str) (c : pydict str UAsset.t) :
  wf_dict c ->
  wipe prefix c =
    (Ok tt, List.filter (fun kv => negb (PyStr.startswith prefix (fst kv))) c).
Proof.
  intros Hwf. destruct prefix as [|a prefix].
  - unfold wipe, modify. f_equal. clear Hwf. induction c as [|kv c IH]; [done|]. exact IH.
  - unfold wipe, bind, get.
    pose proof (CacheMore.del_loop_filter (fun c => c) (fun c _ => c)
                  (fun _ _ => eq_refl) (fun _ _ _ => eq_refl) (fun _ => eq_refl)
                  (fun key => negb (PyStr.startswith (a :: prefix) key)) c Hwf) as Hloop.
    unfold CacheMore.del_body in Hloop. cbv beta in Hloop.
    replace (List.filter (PyStr.startswith (a :: prefix)) (keys c))
      with (List.filter (fun key => negb (negb (PyStr.startswith (a :: prefix) key))) (keys c))
      by (apply filter_ext; intros k; apply negb_involutive).
    exact Hloop.
Qed.

Lemma plain_wipe_witness :
  wf_dict (cache (manager CacheMore.two_mods_world)) /\
  wipe (lit "/Game/Mods/A") (cache (manager CacheMore.two_mods_world))
    = (Ok tt, [(lit "/Game/Mods/B/Y", CacheMore.asset_named "/Game/Mods/B/Y")]).
Proof.
  assert (Hwf : wf_dict (cache (manager CacheMore.two_mods_world))).
  { unfold wf_dict. simpl. apply NoDup_cons. split.
    - rewrite list_elem_of_singleton. discriminate.
    - apply NoDup_singleton. }
  split; [exact Hwf|].
  exact (plain_wipe (lit "/Game/Mods/A") _ Hwf).
Defined.

(** X10. In the plain manager an [add] is read back by the next [lookup]
    of the name, replaces what the name held, leaves every other name as it
    was, and makes the count grow by one exactly when the name is new. *)
Theorem plain_add_lookup (name other : str) (asset : UAsset.t) (c : pydict str UAsset.t) :
  exists c',
    add name asset c = (Ok tt, c') /\
    lookup name c' = (Ok (Some asset), c') /\
    (other <> name -> lookup other c' = (Ok (dict_get other c), c')) /\
    get_count c' =
      (Ok (match dict_get name c with
           | Some _ => Z.of_nat (length c)
           | None => Z.of_nat (length c) + 1
           end)%Z, c').
Proof.
  exists (dict_set name asset c). split; [done|].
  unfold lookup, get_count, bind, get, ret.
  split; [by rewrite dict_get_set|]. split.
  - intros Hne. by rewrite dict_get_set_ne.
  - do 2 f_equal. induction c as [|[k v] c IH]; simpl; [done|].
    destruct (decide (k = name)); simpl; [done|].
    destruct (dict_get name c); simpl in *; lia.
Qed.

End DictManagerFacts.

(** ** More on loading *)

Module LoaderMore.
Import AssetLoader LoaderFacts CacheFacts CacheMore.


Section LoadingMore.
Context {modresolver : ModResolver}.
Variable load_raw_asset : str -> result (memoryview * str).
Variable UAsset_new : memoryview -> result UAsset.t.
Variable deserialise : UAsset.t -> result UAsset.t.
Variable link : UAsset.t -> result UAsset.t.

#[local] Abbreviation _load_asset := (_load_asset load_raw_asset UAsset_new deserialise link).
#[local] Abbreviation parse := (parse UAsset_new deserialise link).
#[local] Abbreviation load_asset := (load_asset load_raw_asset UAsset_new deserialise link).

(** the outcome of the two phases *)
Definition phases (assetname ext : str) (mem : memoryview) (doNotLink : bool)
  : result (UAsset.t + UAsset.t) :=
  match UAsset_new mem with
  | Raise e => Raise e
  | Ok a0 =>
      match deserialise (fresh assetname ext a0) with
      | Raise e => Raise (AssetParseError assetname e)
      | Ok a1 =>
          if doNotLink then Ok (inl a1)
          else match link a1 with
               | Ok a2 => Ok (inr a2)
               | Raise e => Raise (AssetParseError assetname e)
               end
      end
  end.

Lemma parse_phases assetname ext mem doNotLink w :
  parse assetname ext mem doNotLink w = (phases assetname ext mem doNotLink, w).
Proof.
  unfold AssetLoader.parse, phases, bind, lift, try_except, raise, ret.
  destruct (UAsset_new mem) as [a0|e]; [|done]. fold (fresh assetname ext a0).
  destruct (deserialise _) as [a1|e]; [|done].
  destruct doNotLink; [done|]. by destruct (link a1).
Qed.

(** X11. A partial load returns the container as [deserialise] left it,
    neither linked nor given a default export, and never stores it:
    whatever [cache_result] says, the cache is as it was. *)
Theorem partial_load_never_caches (assetname : str) (cache_result : bool) (w : World) :
  manager (snd (partially_load_asset load_raw_asset UAsset_new deserialise link
                  assetname cache_result w)) = manager w /\
  fst (partially_load_asset load_raw_asset UAsset_new deserialise link
         assetname cache_result w) =
    match load_raw_asset assetname with
    | Raise e => Raise e
    | Ok (mem, ext) =>
        match UAsset_new mem with
        | Raise e => Raise e
        | Ok a0 =>
            match deserialise (fresh assetname ext a0) with
            | Raise e => Raise (AssetParseError assetname e)
            | Ok a1 => Ok a1
            end
        end
    end.
Proof.
  unfold partially_load_asset.
  destruct (load_raw_asset assetname) as [[mem ext]|e] eqn:Hraw.
  - rewrite (load_asset_unfold _ _ _ _ _ _ _ _ _ _ _ Hraw), parse_phases.
    unfold phases. destruct (UAsset_new mem) as [a0|e]; [|done].
    by destruct (deserialise _).
  - unfold AssetLoader._load_asset, bind, lift. simpl. by rewrite Hraw.
Qed.






Lemma split_length (d : ascii) (s0 : str) :
  length (PyStr.split d s0) = S (length (List.filter (PyStr.is_char d) s0)).
Proof.
  induction s0 as [|c s0 IH]; [done|]. simpl. unfold PyStr.is_char at 1.
  case_bool_decide; simpl; [by rewrite IH|].
  pose proof (PyStrFacts.split_nonempty d s0).
  destruct (PyStr.split d s0); [done|]. exact IH.
Qed.

(** X14. [load_class] unpacks [fullname.split('.')] into two names: with
    no dot or with more than one dot in [fullname] it raises [ValueError]
    before anything is cleaned, looked up or loaded. *)
Theorem load_class_needs_one_dot {R : Type}
    (fullname : str) (fallback : option R) (quiet : bool) (s : World * Stats.t) :
  length (List.filter (PyStr.is_char dot) fullname) <> 1%nat ->
  load_class load_raw_asset UAsset_new deserialise link fullname fallback quiet s
    = (Raise ValueError, s).
Proof.
  intros Hdots. unfold load_class.
  pose proof (split_length dot fullname) as Hlen.
  destruct (PyStr.split dot fullname) as [|a [|b [|c l]]]; try done.
  simpl in Hlen. lia.
Qed.


End LoadingMore.

(** A loader whose files are all empty and parse to an empty container. *)
Definition any_file (_ : str) : result (memoryview * str) := Ok ([], lit ".uasset").
Definition empty_container (_ : memoryview) : result UAsset.t :=
  Ok (UAsset.mk [] [] [] [] None None FullParse).
Definition no_op (a : UAsset.t) : result UAsset.t := Ok a.

Definition fresh_loader : World * AssetLoader.Stats.t :=
  (empty_world, AssetLoader.Stats.mk 0 0).




Lemma load_class_needs_one_dot_witness :
  AssetLoader.load_class (modresolver := IniModResolver []) (R := unit)
      any_file empty_container no_op no_op (lit "/Game/A.A_C.x") None false fresh_loader
    = (Raise ValueError, fresh_loader).
Proof.
  apply (load_class_needs_one_dot (modresolver := IniModResolver [])
           any_file empty_container no_op no_op). simpl. lia.
Defined.


End LoaderMore.

(** ** More on asset names *)

Module NamingMore.
Import PyStr PyStrFacts AssetLoader NamingFacts.

Lemma before_app_char (d : ascii) (x c : str) :
  contains d x = false -> before d (x ++ d :: c) = x.
Proof.
  intros Hx. apply contains_false in Hx.
  induction Hx as [|a x Ha Hx IH]; simpl.
  - by rewrite bool_decide_eq_true_2.
  - rewrite bool_decide_eq_false_2 by done. by rewrite IH.
Qed.

Lemma contains_app_char (d : ascii) (x c : str) : contains d (x ++ d :: c) = true.
Proof.
  unfold contains. rewrite existsb_app. simpl.
  rewrite bool_decide_eq_true_2 by done. by rewrite orb_true_r.
Qed.

Section Names.
Context {modresolver : ModResolver}.

(** X16. A class qualifier does not matter: [name.cls], for a [name]
    without a dot, cleans to what [name] cleans to, or fails as it does,
    whatever [cls] is. *)
Theorem clean_asset_name_drops_qualifier (name cls : str) :
  contains dot name = false ->
  clean_asset_name (name ++ dot :: cls) = clean_asset_name name.
Proof.
  intros Hname. rewrite !clean_unfold. unfold stem.
  by rewrite contains_app_char, before_app_char, Hname.
Qed.

(** X17. [clean_asset_name] fails in one way only: the second segment of
    the trimmed name is [mods] in some case, the third is numeric, and the
    resolver has no name, or an empty one, for that id; the failure is
    [ModNotFound] for the id. *)
Theorem clean_asset_name_failure (x : str) (e : exn) :
  clean_asset_name x = Raise e <->
  exists p0 p1 modid rest,
    split slash (trimmed (stem x)) = p0 :: p1 :: modid :: rest /\
    PyStr.eqb (lower p1) (lit "mods") = true /\
    isnumeric modid = true /\
    (get_name_from_id modid = None \/ get_name_from_id modid = Some []) /\
    e = ModNotFound modid.
Proof.
  rewrite clean_unfold. unfold mod_ids_to_names.
  destruct (split slash (trimmed (stem x))) as [|p0 [|p1 [|p2 rest]]].
  1-3: split; [done | by intros (? & ? & ? & ? & ? & _)].
  destruct (PyStr.eqb (lower p1) (lit "mods")) eqn:Hmods; cbn [andb].
  2:{ split; [done|]. intros (? & ? & ? & ? & [= <- <- <- <-] & Hm & _).
      rewrite Hmods in Hm. discriminate. }
  destruct (isnumeric p2) eqn:Hnum.
  2:{ split; [done|]. intros (? & ? & ? & ? & [= <- <- <- <-] & _ & Hn & _).
      rewrite Hnum in Hn. discriminate. }
  destruct (get_name_from_id p2) as [[|c n]|] eqn:Hname.
  - split.
    + intros [= <-]. exists p0, p1, p2, rest. repeat split; try done. by right.
    + by intros (? & ? & ? & ? & [= <- <- <- <-] & _ & _ & _ & ->).
  - split; [done|].
    intros (? & ? & ? & ? & [= <- <- <- <-] & _ & _ & [Hn|Hn] & _); congruence.
  - split.
    + intros [= <-]. exists p0, p1, p2, rest. repeat split; try done. by left.
    + by intros (? & ? & ? & ? & [= <- <- <- <-] & _ & _ & _ & ->).
Qed.

End Names.

(** *** Names made of plain segments *)

(** A segment that no strip or split touches: not empty, free of dots and
    separators, not ending in white space. *)
Definition good_segment (p : str) : bool :=
  match p with
  | [] => false
  | _ =>
      forallb (fun c => negb (is_char dot c) && negb (is_char slash c)
                        && negb (is_char backslash c)) p
      && match last p with Some e => negb (isspace e) | None => true end
  end.

Lemma good_segment_spec (p : str) :
  good_segment p = true ->
  p <> [] /\ Forall segment_char p /\ (forall e, last p = Some e -> isspace e = false).
Proof.
  destruct p as [|c p]; [done|]. unfold good_segment.
  rewrite andb_true_iff. intros [Hch Hlast]. split; [done|]. split.
  - apply Forall_forall. intros a Ha. apply list_elem_of_In in Ha.
    apply (proj1 (forallb_forall _ _) Hch) in Ha.
    rewrite !andb_true_iff, !negb_true_iff in Ha. destruct Ha as [[Hd Hs] Hb].
    unfold is_char in *. apply bool_decide_eq_false in Hd, Hs, Hb. done.
  - intros e He. rewrite He in Hlast. by apply negb_true_iff.
Qed.

Lemma last_char_good (ps : list str) (p : str) :
  Forall (fun p => good_segment p = true) ps ->
  last ps = Some p -> last_char ps = last p /\ is_Some (last p).
Proof.
  induction 1 as [|q ps Hq Hps IH]; [done|].
  destruct ps as [|q' ps].
  - intros [= <-]. split; [done|]. apply last_is_Some.
    by apply good_segment_spec in Hq as [? _].
  - rewrite last_cons_cons. intros Hlast. destruct (IH Hlast) as [Heq [e He]].
    split; [|by exists e].
    change (last_char (q :: q' :: ps))
      with (match last_char (q' :: ps) with Some e => Some e | None => Some slash end).
    by rewrite Heq, He.
Qed.

Lemma canonical_of_segments (ps : list str) :
  ps <> [] -> Forall (fun p => good_segment p = true) ps -> canonical ps.
Proof.
  intros Hne Hgood. split; [done| |].
  - eapply Forall_impl; [exact Hgood|]. intros p Hp. by apply good_segment_spec in Hp as (_ & ? & _).
  - rewrite settled_join.
    destruct ps as [|p0 ps]; [done|].
    pose proof (proj1 (Forall_cons _ _ _) Hgood) as [Hp0 _].
    apply good_segment_spec in Hp0 as (Hne0 & Hch0 & _).
    destruct p0 as [|c0 p0]; [done|]. apply Forall_cons in Hch0 as [(_ & _ & Hc0) _].
    cbn [first_char].
    destruct (last (( c0 :: p0) :: ps)) as [pl|] eqn:Hlast; [|by apply last_None in Hlast].
    destruct (last_char_good _ pl Hgood Hlast) as [Heq [e He]]. rewrite Heq, He.
    assert (Hpl : good_segment pl = true).
    { apply (proj1 (Forall_forall _ _) Hgood). by apply last_Some_elem_of. }
    apply good_segment_spec in Hpl as (_ & Hchl & Hsp).
    assert (He' : segment_char e).
    { apply (proj1 (Forall_forall _ _) Hchl). by apply last_Some_elem_of. }
    destruct He' as (_ & _ & Hes). unfold is_char.
    rewrite !bool_decide_eq_false_2 by done. by rewrite (Hsp e He).
Qed.

Lemma numeric_char_plain (c : ascii) :
  isnumeric_char c = true ->
  is_char dot c = false /\ is_char slash c = false /\ is_char backslash c = false
  /\ isspace c = false.
Proof.
  destruct c as [[] [] [] [] [] [] [] []]; intros Hc; vm_compute in Hc;
    try discriminate Hc; repeat split; reflexivity.
Qed.

Lemma numeric_good (p : str) : isnumeric p = true -> good_segment p = true.
Proof.
  destruct p as [|c p]; [done|]. unfold isnumeric, good_segment.
  set (q := c :: p). clearbody q. intros Hnum.
  pose proof (proj1 (forallb_forall _ _) Hnum) as Hall.
  apply andb_true_iff. split.
  - apply forallb_forall. intros a Ha.
    destruct (numeric_char_plain a (Hall a Ha)) as (-> & -> & -> & _). done.
  - destruct (last q) as [e|] eqn:He; [|done].
    apply last_Some_elem_of, list_elem_of_In in He.
    by destruct (numeric_char_plain e (Hall e He)) as (_ & _ & _ & ->).
Qed.

Section Canonical.
Context {modresolver : ModResolver}.

Lemma stem_canonical (ps : list str) :
  canonical ps -> stem (slash :: join slash ps) = slash :: join slash ps.
Proof.
  intros Hcan. unfold stem.
  replace (contains dot (slash :: join slash ps)) with false; [done|].
  symmetry. apply contains_false. constructor; [done|].
  eapply Forall_impl; [apply joined_chars, Hcan|]. by intros c [? ?].
Qed.

(** cleaning a name made of canonical parts applies the two rewriting
    steps to those parts *)
Lemma clean_canonical (ps : list str) :
  canonical ps ->
  clean_asset_name (slash :: join slash ps) =
    match mod_ids_to_names ps with
    | Raise e => Raise e
    | Ok ps' => Ok (slash :: join slash (content_to_game ps'))
    end.
Proof.
  intros Hcan. rewrite clean_unfold, stem_canonical, trimmed_canonical by done.
  rewrite split_join; [done | apply Hcan |].
  eapply Forall_impl; [apply Hcan|]. intros p Hp.
  eapply Forall_impl; [exact Hp|]. by intros c (? & ? & ?).
Qed.


(** what cleaning makes of a mod asset addressed by id *)
Lemma clean_id_form (p0 p1 modid n : str) (rest : list str) :
  forallb good_segment (p0 :: p1 :: rest) = true ->
  PyStr.eqb (lower p1) (lit "mods") = true ->
  isnumeric modid = true ->
  get_name_from_id modid = Some n ->
  good_segment n = true ->
  clean_asset_name (slash :: join slash (p0 :: p1 :: modid :: rest))
    = Ok (slash :: join slash (content_to_game (p0 :: p1 :: n :: rest))).
Proof.
  intros Hgood' Hmods Hnum Hname Hn.
  pose proof (proj1 (forallb_forall _ _) Hgood') as Hgood.
  rewrite clean_canonical.
  - unfold mod_ids_to_names. rewrite Hmods, Hnum, Hname. cbn [andb].
    by destruct n.
  - apply canonical_of_segments; [done|].
    apply Forall_forall. intros p Hp. apply list_elem_of_In in Hp.
    destruct Hp as [<-|[<-|[<-|Hp]]]; [apply Hgood; by left | apply Hgood; right; by left
                                      | by apply numeric_good | apply Hgood; right; by right].
Qed.

Lemma segments_with_name (p0 p1 n : str) (rest : list str) :
  forallb good_segment (p0 :: p1 :: rest) = true ->
  good_segment n = true ->
  Forall (fun p => good_segment p = true) (p0 :: p1 :: n :: rest).
Proof.
  intros Hgood' Hn. pose proof (proj1 (forallb_forall _ _) Hgood') as Hgood.
  apply Forall_forall. intros p Hp. apply list_elem_of_In in Hp.
  destruct Hp as [<-|[<-|[<-|Hp]]]; [apply Hgood; by left | apply Hgood; right; by left
                                    | done | apply Hgood; right; by right].
Qed.

(** X18. The id form and the name form of a mod asset clean to the same
    name: with [modid] registered under [n], [/p0/Mods/<modid>/...] and
    [/p0/Mods/<n>/...] both give the name form (with [Content] as [Game]). *)
Theorem id_and_name_forms_agree (p0 p1 modid n : str) (rest : list str) :
  forallb good_segment (p0 :: p1 :: rest) = true ->
  PyStr.eqb (lower p1) (lit "mods") = true ->
  isnumeric modid = true ->
  get_name_from_id modid = Some n ->
  good_segment n = true ->
  isnumeric n = false ->
  clean_asset_name (slash :: join slash (p0 :: p1 :: modid :: rest))
    = Ok (slash :: join slash (content_to_game (p0 :: p1 :: n :: rest))) /\
  clean_asset_name (slash :: join slash (p0 :: p1 :: n :: rest))
    = Ok (slash :: join slash (content_to_game (p0 :: p1 :: n :: rest))).
Proof.
  intros Hgood Hmods Hnum Hname Hn Hnn. split; [by apply clean_id_form|].
  rewrite clean_canonical.
  - unfold mod_ids_to_names. rewrite Hnn. by rewrite andb_false_r.
  - apply canonical_of_segments; [done | by apply segments_with_name].
Qed.


Section ModsOf.
Variable alias_to_mods : pydict str str.


End ModsOf.

End Canonical.

(** the resolver of [mods.ini] with the single line [123 = MyMod] *)
Lemma my_mod_name : get_name_from_id (ModResolver := one_mod) (lit "123") = Some (lit "MyMod").
Proof. reflexivity. Qed.

Lemma clean_asset_name_drops_qualifier_witness :
  clean_asset_name (modresolver := one_mod) (lit "/Game/Dodo" ++ dot :: lit "Dodo_C")
    = clean_asset_name (modresolver := one_mod) (lit "/Game/Dodo").
Proof.
  apply (clean_asset_name_drops_qualifier (modresolver := one_mod)
           (lit "/Game/Dodo") (lit "Dodo_C")). reflexivity.
Defined.

Lemma id_and_name_forms_agree_witness :
  clean_asset_name (modresolver := one_mod)
      (slash :: join slash [lit "Content"; lit "Mods"; lit "123"; lit "Dodo"])
    = Ok (lit "/Game/Mods/MyMod/Dodo") /\
  clean_asset_name (modresolver := one_mod)
      (slash :: join slash [lit "Content"; lit "Mods"; lit "MyMod"; lit "Dodo"])
    = Ok (lit "/Game/Mods/MyMod/Dodo").
Proof.
  apply (id_and_name_forms_agree (modresolver := one_mod)
           (lit "Content") (lit "Mods") (lit "123") (lit "MyMod") [lit "Dodo"]);
    reflexivity.
Defined.


End NamingMore.

(** ** The resolver of [mods.ini] *)

Module ResolverFacts.





End ResolverFacts.

(** ** From asset names to files *)

Module AssetPathsFacts.
Import PyStr PyStrFacts AssetLoader NamingFacts NamingMore PathMatch AssetPaths.

Section PathsFacts.
Context {modresolver : ModResolver}.
Variable asset_path : Path.
Variable rewrites_to_path : pydict str str.
Variable joinpath : Path -> str -> Path.
Variable fs : FileSystem.
Variable is_dir : Path -> bool.
Variable is_file : Path -> bool.


End PathsFacts.


End AssetPathsFacts.

(** ** More on the path-match memo *)

Module PathMatchMore.
Import PathMatch PathMatchFacts.

(** X22. A match that was found is answered from the memo from then on:
    the same query returns the same path and changes nothing, reads no
    directory and asks the file system nothing, whatever the disk holds by
    then. *)
Theorem match_is_served_from_memo
    (fs fs' : FileSystem) (path found : Path) (s s1 : MemoState) :
  path_match_cache s !! path = None ->
  find_caseinsensitive_path_match fs path s = (Ok (Some found), s1) ->
  find_caseinsensitive_path_match fs' path s1 = (Ok (Some found), s1).
Proof.
  intros Hmiss Hrun. apply memo_hit. by apply (match_is_remembered fs path s).
Qed.

Lemma match_is_served_from_memo_witness :
  find_caseinsensitive_path_match (listed []) [lit "Content"; lit "foo.uasset"]
      (mkMemo {[ [lit "Content"; lit "foo.uasset"] := Some [lit "Content"; lit "Foo.uasset"] ]}
              [[lit "Content"]] [[lit "Content"; lit "foo.uasset"]])
    = (Ok (Some [lit "Content"; lit "Foo.uasset"]),
       mkMemo {[ [lit "Content"; lit "foo.uasset"] := Some [lit "Content"; lit "Foo.uasset"] ]}
              [[lit "Content"]] [[lit "Content"; lit "foo.uasset"]]).
Proof.
  apply (match_is_served_from_memo (listed content_dir) (listed [])
           [lit "Content"; lit "foo.uasset"] [lit "Content"; lit "Foo.uasset"] nothing_yet).
  - reflexivity.
  - reflexivity.
Defined.

(** what the memo holds: each entry is a path whose name is the name
    queried, case apart, and no entry is negative *)
Definition memo_sound (s : MemoState) : Prop :=
  forall path v,
    path_match_cache s !! path = Some v ->
    exists found, v = Some found /\
                  PyStr.lower (name found) = PyStr.lower (name path).

Lemma first_match_name (n : str) (entries : list Path) (found : Path) :
  first_match n entries = Some found -> PyStr.lower (name found) = n.
Proof.
  unfold first_match. intros Hfind. apply find_some in Hfind as [_ Heq].
  unfold PyStr.eqb in Heq. by apply bool_decide_eq_true in Heq.
Qed.

Lemma query_keeps_sound (fs : FileSystem) (path : Path) (s : MemoState) r s' :
  memo_sound s ->
  find_caseinsensitive_path_match fs path s = (r, s') ->
  memo_sound s' /\
  forall found, r = Ok (Some found) ->
                PyStr.lower (name found) = PyStr.lower (name path).
Proof.
  intros Hsound. unfold find_caseinsensitive_path_match, bind at 1, get at 1.
  destruct (path_match_cache s !! path) as [cached|] eqn:Hmemo.
  - intros [= <- <-]. split; [done|]. intros found [= ->].
    destruct (Hsound path _ Hmemo) as (f & [= <-] & Hname). done.
  - unfold bind at 1, modify at 1. destruct (exists_ fs path).
    + intros [= <- <-]. split; [|by intros found [= <-]].
      intros p v. simpl. rewrite lookup_insert. case_decide as Hp.
      * subst p. intros [= <-]. by exists path.
      * apply Hsound.
    + unfold bind at 1, modify at 1. unfold bind at 1, lift.
      destruct (iterdir fs (parent path)) as [entries|e]; [|by intros [= <- <-]].
      destruct (first_match _ entries) as [found|] eqn:Hfind.
      * apply first_match_name in Hfind. intros [= <- <-].
        split; [|by intros ? [= <-]].
        intros p v. simpl. rewrite lookup_insert. case_decide as Hp.
        -- subst p. intros [= <-]. by exists found.
        -- apply Hsound.
      * by intros [= <- <-].
Qed.

(** X23. The memo stays sound: from a memo whose entries are matches, a
    query leaves a memo whose entries are matches, and a path it returns
    has the name that was asked for, case apart. *)
Theorem memo_stays_sound (fs : FileSystem) (path : Path) (s : MemoState) :
  memo_sound s ->
  memo_sound (snd (find_caseinsensitive_path_match fs path s)) /\
  forall found,
    fst (find_caseinsensitive_path_match fs path s) = Ok (Some found) ->
    PyStr.lower (name found) = PyStr.lower (name path).
Proof.
  intros Hsound.
  destruct (find_caseinsensitive_path_match fs path s) as [r s'] eqn:Hrun.
  exact (query_keeps_sound fs path s r s' Hsound Hrun).
Qed.

Lemma memo_stays_sound_witness :
  memo_sound nothing_yet /\
  memo_sound (snd (find_caseinsensitive_path_match (listed content_dir)
                     [lit "Content"; lit "foo.uasset"] nothing_yet)) /\
  forall found,
    fst (find_caseinsensitive_path_match (listed content_dir)
           [lit "Content"; lit "foo.uasset"] nothing_yet) = Ok (Some found) ->
    PyStr.lower (name found) = PyStr.lower (name [lit "Content"; lit "foo.uasset"]).
Proof.
  assert (Hempty : memo_sound nothing_yet).
  { intros path v. simpl. by rewrite lookup_empty. }
  split; [exact Hempty|].
  exact (memo_stays_sound (listed content_dir) [lit "Content"; lit "foo.uasset"]
           nothing_yet Hempty).
Defined.

Section WalkFacts.
Variable joinpath : Path -> str -> Path.
Variable fs : FileSystem.

(** every entry of the memo maps a path to itself *)
Definition memo_exact (s : MemoState) : Prop :=
  forall path v, path_match_cache s !! path = Some v -> v = Some path.

(** each prefix of the walk exists as it is spelled *)
Fixpoint all_exist (current : Path) (parts : list str) : Prop :=
  match parts with
  | [] => True
  | part :: parts' =>
      exists_ fs (joinpath current part) = true /\
      all_exist (joinpath current part) parts'
  end.

Lemma walk_existing (parts : list str) (current : Path) (s : MemoState) :
  memo_exact s ->
  all_exist current parts ->
  exists s',
    walk joinpath fs parts (Some current) s
      = (Ok (Some (fold_left joinpath parts current)), s') /\
    scanned s' = scanned s /\
    memo_exact s'.
Proof.
  revert current s. induction parts as [|part parts IH]; intros current s Hexact Hall.
  - by exists s.
  - destruct Hall as [Hex Hall]. cbn [walk fold_left].
    assert (Hstep : exists s1,
              find_caseinsensitive_path_match fs (joinpath current part) s
                = (Ok (Some (joinpath current part)), s1) /\
              scanned s1 = scanned s /\ memo_exact s1).
    { unfold find_caseinsensitive_path_match, bind at 1, get at 1.
      destruct (path_match_cache s !! joinpath current part) as [cached|] eqn:Hmemo.
      - rewrite (Hexact _ _ Hmemo). by exists s.
      - unfold bind at 1, modify at 1. rewrite Hex.
        eexists. split; [reflexivity|]. split; [done|].
        intros p v. simpl. rewrite lookup_insert. case_decide as Hp.
        + subst p. by intros [= <-].
        + apply Hexact. }
    destruct Hstep as (s1 & Hrun & Hscan & Hexact1).
    destruct (IH (joinpath current part) s1 Hexact1 Hall) as (s' & Hwalk & Hscan' & Hexact').
    exists s'. unfold bind. rewrite Hrun. split; [done|]. split; [congruence | done].
Qed.

(** X24. A path that exists as it is spelled, segment by segment, is
    resolved to itself by [find_caseinsensitive_path] without reading any
    directory (the memo holding only paths that resolved to themselves). *)
Theorem existing_path_needs_no_scan (base : Path) (parts : list str) (s : MemoState) :
  memo_exact s ->
  all_exist base parts ->
  exists s',
    find_caseinsensitive_path joinpath fs base parts s
      = (Ok (Some (fold_left joinpath parts base)), s') /\
    scanned s' = scanned s.
Proof.
  intros Hexact Hall. destruct parts as [|part parts]; [by exists s|].
  destruct (walk_existing (part :: parts) base s Hexact Hall) as (s' & Hwalk & Hscan & _).
  by exists s'.
Qed.

End WalkFacts.

Lemma existing_path_needs_no_scan_witness :
  exists s',
    find_caseinsensitive_path (fun current part => current ++ [part]) (listed content_dir)
        [] [lit "Content"; lit "Foo.uasset"] nothing_yet
      = (Ok (Some [lit "Content"; lit "Foo.uasset"]), s') /\
    scanned s' = scanned nothing_yet.
Proof.
  apply (existing_path_needs_no_scan (fun current part => current ++ [part])
           (listed content_dir) [] [lit "Content"; lit "Foo.uasset"] nothing_yet).
  - intros path v. simpl. by rewrite lookup_empty.
  - simpl. repeat split; reflexivity.
Defined.

End PathMatchMore.

(** ** More on the instanced-geometry blob parser *)

Module ObjectsMore.
Import InstancedStaticMeshComponentObject ObjectsFacts.

Section ParserMore.
Context {F SDF : Type} `{StreamOps F SDF}.

#[local] Abbreviation field := (@visible_instances F).

Lemma read_instance_keeps_field : preserves field read_instance.
Proof.
  unfold read_instance.
  repeat first [ apply on_stream_keeps_field | apply skip_keeps_field
               | apply preserves_ret | apply preserves_bind; [|intros ?] ].
Qed.

Lemma read_instances_keep_field (n : nat) (acc : list (F * F * F)) :
  preserves field (read_instances n acc).
Proof.
  revert acc. induction n as [|n IH]; intros acc; simpl.
  - apply preserves_ret.
  - apply preserves_bind; [apply read_instance_keeps_field | intros i; apply IH].
Qed.

Lemma read_instances_length (n : nat) (acc l : list (F * F * F)) (o o' : Obj) :
  read_instances n acc o = (Ok l, o') -> length l = (length acc + n)%nat.
Proof.
  revert acc o. induction n as [|n IH]; intros acc o; simpl.
  - intros [= <- _]. lia.
  - unfold bind at 1. destruct (read_instance o) as [[i|e] o1]; [|done].
    intros Hrest. apply IH in Hrest. rewrite length_app in Hrest. simpl in Hrest. lia.
Qed.

(** X25. [_deserialise] is all or nothing: when it returns, the LOD
    sections were read, the stored struct size was 80, and
    [visible_instances] holds exactly as many instances as the count that
    follows the size; when it raises, at whatever read, the field is as it
    was. *)
Theorem deserialise_all_or_nothing (o : Obj) :
  match _deserialise o with
  | (Ok _, o') =>
      exists o1 o2 o3 n instances,
        lod_sections o = (Ok tt, o1) /\
        on_stream readUInt32 o1 = (Ok 80%Z, o2) /\
        on_stream readUInt32 o2 = (Ok n, o3) /\
        visible_instances o' = Some instances /\
        length instances = Z.to_nat n
  | (Raise _, o') => visible_instances o' = visible_instances o
  end.
Proof.
  unfold _deserialise, bind at 1.
  destruct (lod_sections o) as [[[]|e] o1] eqn:Hlod.
  2:{ by apply (lod_sections_keep_field _ _ _ Hlod). }
  pose proof (lod_sections_keep_field _ _ _ Hlod) as Hf1.
  unfold bind at 1. destruct (on_stream readUInt32 o1) as [[size|e] o2] eqn:Hsize.
  2:{ rewrite <- Hf1. by apply (on_stream_keeps_field _ _ _ _ Hsize). }
  pose proof (on_stream_keeps_field _ _ _ _ Hsize) as Hf2.
  unfold bind at 1. destruct (Z.eqb_spec size 80) as [->|Hne].
  2:{ unfold raise. congruence. }
  unfold ret at 1. unfold bind at 1.
  destruct (on_stream readUInt32 o2) as [[n|e] o3] eqn:Hcount.
  2:{ rewrite <- Hf1, <- Hf2. by apply (on_stream_keeps_field _ _ _ _ Hcount). }
  pose proof (on_stream_keeps_field _ _ _ _ Hcount) as Hf3.
  unfold bind at 1.
  destruct (read_instances (Z.to_nat n) [] o3) as [[instances|e] o4] eqn:Hread.
  2:{ rewrite <- Hf1, <- Hf2, <- Hf3. by apply (read_instances_keep_field _ _ _ _ _ Hread). }
  unfold _newField, modify. exists o1, o2, o3, n, instances.
  repeat split; try done. by apply read_instances_length in Hread.
Qed.

(** the reads leave the cursor four bytes further *)
Definition float_is_four_bytes : Prop :=
  forall s v s', readFloat s = (Ok v, s') -> offset s' = (offset s + 4)%Z.

Lemma on_stream_run {A} (m : M MemoryStream A) (o : @Obj F) (r : result A) (o' : @Obj F) :
  on_stream m o = (r, o') -> m (stream o) = (r, stream o').
Proof.
  unfold on_stream. destruct (m (stream o)) as [r0 s']. by intros [= <- <-].
Qed.

Lemma read_instance_span (o o' : Obj) (i : F * F * F) :
  float_is_four_bytes ->
  read_instance o = (Ok i, o') ->
  offset (stream o') = (offset (stream o) + 80)%Z.
Proof.
  intros Hfloat. unfold read_instance, bind at 1, skip at 1, modify at 1.
  set (o0 := mkObj _ _).
  unfold bind at 1. destruct (on_stream readFloat o0) as [[x|e] o1] eqn:Hx; [|done].
  unfold bind at 1. destruct (on_stream readFloat o1) as [[y|e] o2] eqn:Hy; [|done].
  unfold bind at 1. destruct (on_stream readFloat o2) as [[z|e] o3] eqn:Hz; [|done].
  apply on_stream_run, Hfloat in Hx, Hy, Hz.
  unfold bind, skip, modify, ret. intros [= _ <-]. simpl.
  rewrite Hz, Hy, Hx. subst o0. simpl. lia.
Qed.

(** X26. The instance records fill the struct size that is checked: with
    a reader whose floats take four bytes, reading [n] instances moves the
    cursor by exactly [80 * n] bytes. *)
Theorem instances_span_struct_size
    (n : nat) (acc instances : list (F * F * F)) (o o' : Obj) :
  float_is_four_bytes ->
  read_instances n acc o = (Ok instances, o') ->
  offset (stream o') = (offset (stream o) + 80 * Z.of_nat n)%Z.
Proof.
  intros Hfloat. revert acc o. induction n as [|n IH]; intros acc o; simpl.
  - intros [= _ <-]. lia.
  - unfold bind at 1. destruct (read_instance o) as [[i|e] o1] eqn:Hone; [|done].
    intros Hrest. apply IH in Hrest.
    rewrite Hrest, (read_instance_span _ _ _ Hfloat Hone). lia.
Qed.

End ParserMore.

Lemma read_le_offset (n : nat) (s s' : MemoryStream) (v : Z) :
  read_le n s = (Ok v, s') -> offset s' = (offset s + Z.of_nat n)%Z.
Proof.
  unfold read_le. destruct ((fix go (k : nat) (i : Z) : option Z := _) n (offset s)); [|done].
  by intros [= _ <-].
Qed.

(** one instance record of eighty zero bytes *)
Definition one_record : Obj (F := Z) :=
  mkObj (mkStream (List.repeat Byte.x00 80) 0) None.

Lemma instances_span_struct_size_witness :
  offset (stream (mkObj (F := Z) (mkStream (List.repeat Byte.x00 80) 80) None))
    = (offset (stream one_record) + 80 * Z.of_nat 1)%Z.
Proof.
  apply (instances_span_struct_size (H := le_ops) 1 [] [(0, 0, 0)%Z] one_record
           (mkObj (mkStream (List.repeat Byte.x00 80) 80) None)).
  - intros s v s' Hread. exact (read_le_offset 4 s s' v Hread).
  - reflexivity.
Defined.

End ObjectsMore.

(** ** Declaring and instantiating proxy types *)

Module ProxyMore.
Import UEProxyStructure.

Section DeclaringFacts.
Context {UEBase Tval : Type}.
Variable create : Tval -> UEBase.

(** what [uemap] stores for one argument *)
Definition stored (a : arg UEBase Tval) : option UEBase :=
  match a with
  | ArgNone => None
  | ArgElement v => Some v
  | ArgValue v => Some (create v)
  end.

Lemma uemap_from_lookup (args : list (arg UEBase Tval)) (i j : Z) (output : gmap Z UEBase) :
  uemap_from UEBase create i args output !! j
    = if bool_decide (i <= j < i + Z.of_nat (length args))%Z
      then match args !! Z.to_nat (j - i) with
           | Some a => match stored a with
                       | Some v => Some v
                       | None => output !! j
                       end
           | None => output !! j
           end
      else output !! j.
Proof.
  revert i output. induction args as [|a args IH]; intros i output.
  - simpl. rewrite bool_decide_eq_false_2 by lia. done.
  - assert (Hhere : forall out : gmap Z UEBase,
              uemap_from UEBase create (i + 1) args out !! j
                = if bool_decide (i + 1 <= j < i + 1 + Z.of_nat (length args))%Z
                  then match args !! Z.to_nat (j - (i + 1)) with
                       | Some a => match stored a with
                                   | Some v => Some v
                                   | None => out !! j
                                   end
                       | None => out !! j
                       end
                  else out !! j) by (intros out; apply IH).
    destruct (decide (j = i)) as [->|Hne].
    + rewrite (bool_decide_eq_true_2 (i <= i < i + Z.of_nat (length (a :: args)))%Z)
        by (simpl length; lia).
      replace (Z.to_nat (i - i)) with 0%nat by lia. simpl lookup.
      destruct a as [|v|v]; simpl uemap_from; rewrite Hhere;
        rewrite bool_decide_eq_false_2 by lia; simpl stored;
        by rewrite ?lookup_insert_eq.
    + destruct (decide (i <= j < i + Z.of_nat (length (a :: args)))%Z) as [Hin|Hout].
      * rewrite (bool_decide_eq_true_2 _ Hin). simpl length in Hin.
        replace (Z.to_nat (j - i)) with (S (Z.to_nat (j - (i + 1)))) by lia.
        simpl lookup.
        destruct a as [|v|v]; simpl uemap_from; rewrite Hhere;
          rewrite bool_decide_eq_true_2 by lia;
          rewrite ?lookup_insert_ne by done; done.
      * rewrite (bool_decide_eq_false_2 _ Hout). simpl length in Hout.
        destruct a as [|v|v]; simpl uemap_from; rewrite Hhere;
          rewrite bool_decide_eq_false_2 by lia;
          rewrite ?lookup_insert_ne by done; done.
Qed.

(** X27. [uemap] keeps positions: index [i] of the result holds what was
    made of the [i]-th argument, an element as it is and a plain value
    through [create]; a [None] argument leaves a gap at its index without
    shifting the ones after it, and no other index is set. *)
Theorem uemap_keeps_positions (args : list (arg UEBase Tval)) (i : Z) :
  uemap UEBase create args !! i
    = if bool_decide (0 <= i)%Z
      then args !! Z.to_nat i ≫= stored
      else None.
Proof.
  unfold uemap. rewrite uemap_from_lookup. rewrite Z.sub_0_r, Z.add_0_l.
  rewrite lookup_empty. destruct (decide (0 <= i)%Z) as [Hpos|Hneg].
  - rewrite (bool_decide_eq_true_2 _ Hpos).
    destruct (decide (i < Z.of_nat (length args))%Z) as [Hlt|Hge].
    + rewrite bool_decide_eq_true_2 by lia.
      destruct (args !! Z.to_nat i) as [a|]; [|done]. simpl. by destruct (stored a).
    + rewrite bool_decide_eq_false_2 by lia.
      rewrite (lookup_ge_None_2 args (Z.to_nat i)) by lia. done.
  - rewrite (bool_decide_eq_false_2 (0 <= i)%Z) by done.
    by rewrite bool_decide_eq_false_2 by lia.
Qed.

End DeclaringFacts.

Section RegistryFacts.
Context {UEBase : Type}.
Implicit Types (class_dict : gmap string (gmap Z UEBase))
               (s : gmap string (gmap string (gmap Z UEBase))).



End RegistryFacts.


End ProxyMore.
